(** * SEEKER: voice-interface classification stub, agent router and SAIR loop

    The development has four parts.

    - [Binary64]: JavaScript Numbers as IEEE 754 binary64 values, carried by
      the Standard Library's [spec_float] with its reference operations
      ([SFmul], [SFadd], round to nearest, ties to even), and [Math.floor].
    - [Voice]: the methods [classifyVoiceInput] and [translateVoiceInput] of
      the class [SEEKERVoiceInterface], as computations in a state and
      exception monad over the browser state they touch (console, document,
      random source).
    - [Router]: the Agent Router of the design document (section 4.2).
    - [Sair]: one cycle of the Adaptive Loop of the design document
      (section 4.3).

    The Python services behind [Router] and [Sair] are not part of the
    sources at hand; their definitions follow the design document and say so. *)

From Stdlib Require Import ZArith QArith Qabs Qminmax String Ascii List Lia Lqa.
From Stdlib Require Import Floats.SpecFloat.
From Stdlib Require Import Numbers.DecimalString.
From stdpp Require Import gmap strings list sorting.

Local Open Scope Z_scope.

(* ===================================================================== *)
(** * JavaScript Numbers                                                  *)
(* ===================================================================== *)

Module Binary64.

(** binary64: 53 bits of precision, infinities at exponent 1024. *)
Definition prec : Z := 53.
Definition emax : Z := 1024.

Definition js_mul : spec_float -> spec_float -> spec_float := SFmul prec emax.
Definition js_add : spec_float -> spec_float -> spec_float := SFadd prec emax.

(** The Number denoted by an integer literal. *)
Definition js_of_Z (z : Z) : spec_float := binary_normalize prec emax z 0 false.

Definition num_1 : spec_float := Eval vm_compute in js_of_Z 1.
Definition num_5 : spec_float := Eval vm_compute in js_of_Z 5.
Definition num_20 : spec_float := Eval vm_compute in js_of_Z 20.
Definition num_80 : spec_float := Eval vm_compute in js_of_Z 80.

(** The result of [Math.floor]: an integer-valued Number, carried as that
    integer, or NaN or an infinity, which [Math.floor] returns unchanged. *)
Inductive floored :=
  | FlInteger (z : Z)
  | FlNaN
  | FlInfinity (negative : bool).

(** [Math.floor] *)
Definition Math_floor (x : spec_float) : floored :=
  match x with
  | S754_zero _ => FlInteger 0
  | S754_finite s m e =>
      FlInteger (if 0 <=? e
                 then cond_Zopp s (Zpos m) * 2 ^ e
                 else cond_Zopp s (Zpos m) / 2 ^ (- e))
  | S754_infinity s => FlInfinity s
  | S754_nan => FlNaN
  end.

(** The range of [Math.random()]: a Number with positive sign, greater than
    or equal to 0 and strictly less than 1. *)
Definition unit_interval (r : spec_float) : bool :=
  match r with
  | S754_zero false => true
  | S754_finite false m e => bounded prec emax m e && SFltb r num_1
  | _ => false
  end.

(** The largest Number below 1, [1 - 2^-53], printed 0.9999999999999999. *)
Definition below_one : spec_float := S754_finite false 9007199254740991 (-53).

(** One half and one tenth (the Number nearest to 0.1). *)
Definition one_half : spec_float := S754_finite false 4503599627370496 (-53).
Definition one_tenth : spec_float := S754_finite false 7205759403792794 (-56).
Definition nine_tenths : spec_float := S754_finite false 8106479329266893 (-53).

End Binary64.

(* ===================================================================== *)
(** * The voice interface (class [SEEKERVoiceInterface])                  *)
(* ===================================================================== *)

Module Voice.
Import Binary64.

(** ** Browser state *)

Inductive LogLevel := LvlLog | LvlWarn | LvlError.

(** One call of [console.log], [console.warn] or [console.error] with its
    arguments as displayed. *)
Record LogEntry := { level : LogLevel; args : list string }.

(** An element of the page, with the three properties the class writes. *)
Record Element := { innerHTML : string; disabled : bool; style_width : string }.

(** A [SpeechRecognition] object.  [active] is the host's own state: set by
    [start()], cleared by [stop()]. *)
Record Recognition :=
  { continuous : bool; interimResults : bool; lang : string; active : bool }.

Record Utterance :=
  { utt_text : string; utt_lang : string; utt_rate : spec_float; utt_pitch : spec_float }.

(** The closure handed to [setTimeout] by [processVoiceInput]; it captures
    the text. *)
Inductive Task := ClassifyAndTranslate (text : string).

Record Timer := { delay_ms : Z; task : Task }.

Inductive Exn :=
  | InvalidStateError (msg : string)
  | TypeError (msg : string).

Definition exn_message (e : Exn) : string :=
  match e with
  | InvalidStateError m => "InvalidStateError: " +:+ m
  | TypeError m => "TypeError: " +:+ m
  end.

Record World :=
  { console : list LogEntry;
    document : gmap string Element;
    (** [Math.random]: the sequence of Numbers it will return, and how many
        have been drawn. *)
    random_source : nat -> spec_float;
    draws : nat;
    (** the fields of the instance *)
    isRecording : bool;
    recognition : option Recognition;
    synthesis : option (list Utterance);
    (** callbacks scheduled with [setTimeout], oldest first *)
    timers : list Timer }.

Definition set_console (c : list LogEntry) (w : World) : World :=
  {| console := c; document := document w; random_source := random_source w;
     draws := draws w; isRecording := isRecording w; recognition := recognition w;
     synthesis := synthesis w; timers := timers w |}.

Definition set_document (d : gmap string Element) (w : World) : World :=
  {| console := console w; document := d; random_source := random_source w;
     draws := draws w; isRecording := isRecording w; recognition := recognition w;
     synthesis := synthesis w; timers := timers w |}.

Definition set_draws (n : nat) (w : World) : World :=
  {| console := console w; document := document w; random_source := random_source w;
     draws := n; isRecording := isRecording w; recognition := recognition w;
     synthesis := synthesis w; timers := timers w |}.

Definition set_isRecording (b : bool) (w : World) : World :=
  {| console := console w; document := document w; random_source := random_source w;
     draws := draws w; isRecording := b; recognition := recognition w;
     synthesis := synthesis w; timers := timers w |}.

Definition set_recognition (r : option Recognition) (w : World) : World :=
  {| console := console w; document := document w; random_source := random_source w;
     draws := draws w; isRecording := isRecording w; recognition := r;
     synthesis := synthesis w; timers := timers w |}.

Definition set_synthesis (s : option (list Utterance)) (w : World) : World :=
  {| console := console w; document := document w; random_source := random_source w;
     draws := draws w; isRecording := isRecording w; recognition := recognition w;
     synthesis := s; timers := timers w |}.

Definition set_timers (t : list Timer) (w : World) : World :=
  {| console := console w; document := document w; random_source := random_source w;
     draws := draws w; isRecording := isRecording w; recognition := recognition w;
     synthesis := synthesis w; timers := t |}.

(** ** Computations: state and exceptions *)

Definition JS (A : Type) : Type := World -> (Exn + A) * World.

Definition ret {A : Type} (a : A) : JS A := fun w => (inr a, w).

Definition bind {A B : Type} (m : JS A) (k : A -> JS B) : JS B :=
  fun w => match m w with
           | (inr a, w') => k a w'
           | (inl e, w') => (inl e, w')
           end.

Definition throw {A : Type} (e : Exn) : JS A := fun w => (inl e, w).

(** [try { body } catch (error) { handler }]: the effects of [body] up to the
    throw are kept. *)
Definition try_catch {A : Type} (body : JS A) (handler : Exn -> JS A) : JS A :=
  fun w => match body w with
           | (inr a, w') => (inr a, w')
           | (inl e, w') => handler e w'
           end.

Declare Scope js_scope.
Delimit Scope js_scope with js.
Notation "x <- m ;; k" := (bind m (fun x => k))
  (at level 100, m at next level, right associativity) : js_scope.
Notation "m ;;; k" := (bind m (fun _ => k))
  (at level 100, right associativity) : js_scope.
Local Open Scope js_scope.

(** ** Host operations *)

Definition console_emit (l : LogLevel) (a : list string) : JS unit :=
  fun w => (inr tt, set_console (console w ++ [{| level := l; args := a |}]) w).

Definition console_log : list string -> JS unit := console_emit LvlLog.
Definition console_warn : list string -> JS unit := console_emit LvlWarn.
Definition console_error : list string -> JS unit := console_emit LvlError.

(** [Math.random()]: the next Number of the source. *)
Definition Math_random : JS spec_float :=
  fun w => (inr (random_source w (draws w)), set_draws (S (draws w)) w).

(** [document.getElementById(id)]: the element, or [null]. *)
Definition getElementById (id : string) : JS (option Element) :=
  fun w => (inr (document w !! id), w).

(** Assignment to a property of the element with that id. *)
Definition update_element (id : string) (f : Element -> Element) : JS unit :=
  fun w => (inr tt, set_document (alter f id (document w)) w).

Definition put_innerHTML (html : string) (el : Element) : Element :=
  {| innerHTML := html; disabled := disabled el; style_width := style_width el |}.

Definition put_disabled (b : bool) (el : Element) : Element :=
  {| innerHTML := innerHTML el; disabled := b; style_width := style_width el |}.

Definition put_style_width (v : string) (el : Element) : Element :=
  {| innerHTML := innerHTML el; disabled := disabled el; style_width := v |}.

(** ** Values on display *)

(** [a[i]] for an array of strings and the result of [Math.floor]:
    [undefined] outside the array. *)
Definition array_get (a : list string) (i : floored) : option string :=
  match i with
  | FlInteger z => if z <? 0 then None else a !! Z.to_nat z
  | FlNaN | FlInfinity _ => None
  end.

(** A string or [undefined] inside a template literal or a console call. *)
Definition display (v : option string) : string := default "undefined" v.

(** Decimal notation of an integer, as [Number.prototype.toString] prints an
    integer-valued Number below [10^21]. *)
Definition decimal (z : Z) : string := NilZero.string_of_int (Z.to_int z).

Definition number_to_string (n : floored) : string :=
  match n with
  | FlInteger z => decimal z
  | FlNaN => "NaN"
  | FlInfinity false => "Infinity"
  | FlInfinity true => "-Infinity"
  end.

Definition dquote : string := String (Ascii.Ascii false true false false false true false false) EmptyString.
Definition newline : string := String (Ascii.Ascii false true false true false false false false) EmptyString.

(** ** [classifyVoiceInput] *)

Definition classifications : list string :=
  ["Business Meeting"; "Technical Discussion"; "Casual Conversation";
   "Presentation"; "Interview"].

(** The template literal assigned to [classificationResults.innerHTML]. *)
Definition results_html (classification confidence : string) : string :=
  newline
  +:+ "                    <div class=" +:+ dquote +:+ "alert alert-success" +:+ dquote +:+ ">" +:+ newline
  +:+ "                        <strong>Classification:</strong> " +:+ classification +:+ "<br>" +:+ newline
  +:+ "                        <strong>Confidence:</strong> " +:+ confidence +:+ "%" +:+ newline
  +:+ "                    </div>" +:+ newline
  +:+ "                ".

(** [classifications[Math.floor(r * classifications.length)]] *)
Definition pick_classification (r : spec_float) : option string :=
  array_get classifications
    (Math_floor (js_mul r (js_of_Z (Z.of_nat (length classifications))))).

(** [Math.floor(r * 20 + 80)] *)
Definition confidence_percent (r : spec_float) : floored :=
  Math_floor (js_add (js_mul r num_20) num_80).

Definition classifyVoiceInput (text : string) : JS unit :=
  try_catch
    (console_log ["🏷️ Classifying voice input..."] ;;;
     r <- Math_random ;;
     let randomClassification := pick_classification r in
     classificationResults <- getElementById "classificationResults" ;;
     match classificationResults with
     | Some _ =>
         r' <- Math_random ;;
         update_element "classificationResults"
           (put_innerHTML (results_html (display randomClassification)
                             (number_to_string (confidence_percent r'))))
     | None => ret tt
     end ;;;
     console_log ["✅ Voice input classified:"; display randomClassification])
    (fun error =>
       console_error ["❌ Error classifying voice input:"; exn_message error]).

(** ** [translateVoiceInput] *)

Definition translateVoiceInput (text : string) : JS unit :=
  try_catch
    (console_log ["🌍 Translating voice input..."] ;;;
     let translatedText := "[Translated] " +:+ text in
     console_log ["✅ Voice input translated:"; translatedText])
    (fun error =>
       console_error ["❌ Error translating voice input:"; exn_message error]).

(** ** [updateVoiceProgress] *)

(** [percentage] is a whole percentage from 0 to 100; the class passes 0 and
    50.  In that range [percentage + '%'] is the decimal digits followed by
    the percent sign, and the style accepts the value as it is. *)
Definition updateVoiceProgress (percentage : Z) : JS unit :=
  try_catch
    (progressBar <- getElementById "voiceProgress" ;;
     match progressBar with
     | Some _ => update_element "voiceProgress" (put_style_width (decimal percentage +:+ "%"))
     | None => ret tt
     end)
    (fun error =>
       console_error ["❌ Error updating voice progress:"; exn_message error]).

(** ** [startVoiceInput] and [stopVoiceInput] *)

Definition put_active (b : bool) (r : Recognition) : Recognition :=
  {| continuous := continuous r; interimResults := interimResults r;
     lang := lang r; active := b |}.

Definition put_lang (l : string) (r : Recognition) : Recognition :=
  {| continuous := continuous r; interimResults := interimResults r;
     lang := l; active := active r |}.

(** [this.recognition.start()]: the host throws an [InvalidStateError] when
    the recognition has already been started. *)
Definition recognition_start (r : Recognition) : JS unit :=
  fun w => if active r
           then (inl (InvalidStateError "recognition has already started"), w)
           else (inr tt, set_recognition (Some (put_active true r)) w).

(** [this.recognition.stop()]: nothing happens when it is not running. *)
Definition recognition_stop (r : Recognition) : JS unit :=
  fun w => (inr tt, set_recognition (Some (put_active false r)) w).

Definition assign_isRecording (b : bool) : JS unit :=
  fun w => (inr tt, set_isRecording b w).

Definition read_isRecording : JS bool := fun w => (inr (isRecording w), w).
Definition read_recognition : JS (option Recognition) := fun w => (inr (recognition w), w).
Definition read_synthesis : JS (option (list Utterance)) := fun w => (inr (synthesis w), w).

(** [if (el) statement] for an element or [null]. *)
Definition when_present (el : option Element) (m : JS unit) : JS unit :=
  match el with
  | Some _ => m
  | None => ret tt
  end.

Definition startVoiceInput : JS unit :=
  try_catch
    (recording <- read_isRecording ;;
     if recording then console_log ["⚠️ Already recording"]
     else
       console_log ["🎤 Starting voice input..."] ;;;
       rec <- read_recognition ;;
       match rec with
       | Some r =>
           recognition_start r ;;;
           assign_isRecording true ;;;
           startBtn <- getElementById "startVoiceBtn" ;;
           stopBtn <- getElementById "stopVoiceBtn" ;;
           when_present startBtn (update_element "startVoiceBtn" (put_disabled true)) ;;;
           when_present stopBtn (update_element "stopVoiceBtn" (put_disabled false)) ;;;
           updateVoiceProgress 50 ;;;
           console_log ["✅ Voice input started"]
       | None => console_error ["❌ Speech recognition not available"]
       end)
    (fun error =>
       console_error ["❌ Failed to start voice input:"; exn_message error]).

Definition stopVoiceInput : JS unit :=
  try_catch
    (recording <- read_isRecording ;;
     if negb recording then console_log ["⚠️ Not recording"]
     else
       console_log ["⏹️ Stopping voice input..."] ;;;
       rec <- read_recognition ;;
       match rec with
       | Some r =>
           recognition_stop r ;;;
           assign_isRecording false ;;;
           startBtn <- getElementById "startVoiceBtn" ;;
           stopBtn <- getElementById "stopVoiceBtn" ;;
           when_present startBtn (update_element "startVoiceBtn" (put_disabled false)) ;;;
           when_present stopBtn (update_element "stopVoiceBtn" (put_disabled true)) ;;;
           updateVoiceProgress 0 ;;;
           console_log ["✅ Voice input stopped"]
       | None => ret tt
       end)
    (fun error =>
       console_error ["❌ Failed to stop voice input:"; exn_message error]).

(** ** [processVoiceInput] and its timer *)

(** [setTimeout(callback, delay)] *)
Definition setTimeout (t : Task) (delay : Z) : JS unit :=
  fun w => (inr tt, set_timers (timers w ++ [{| delay_ms := delay; task := t |}]) w).

Definition processVoiceInput (text : string) : JS unit :=
  try_catch
    (console_log ["🧠 Processing voice input:"; text] ;;;
     setTimeout (ClassifyAndTranslate text) 1000)
    (fun error =>
       console_error ["❌ Error processing voice input:"; exn_message error]).

(** The body of the scheduled closure. *)
Definition run_task (t : Task) : JS unit :=
  match t with
  | ClassifyAndTranslate text => classifyVoiceInput text ;;; translateVoiceInput text
  end.

(** The host fires the oldest pending timer. *)
Definition fire_timer : JS unit :=
  fun w => match timers w with
           | [] => (inr tt, w)
           | t :: rest => run_task (task t) (set_timers rest w)
           end.

(** ** [handleSpeechResult] *)

Record SpeechRecognitionResult := { isFinal : bool; alternatives : list string }.

Record SpeechRecognitionEvent :=
  { resultIndex : nat; results : list SpeechRecognitionResult }.

(** The [for] loop: [results[i][0].transcript] is appended to the final or to
    the interim transcript; a result without alternatives makes
    [results[i][0]] undefined and the property read throws. *)
Fixpoint collect_transcripts (rs : list SpeechRecognitionResult)
    (finalTranscript interimTranscript : string) : Exn + (string * string) :=
  match rs with
  | [] => inr (finalTranscript, interimTranscript)
  | r :: rest =>
      match alternatives r with
      | [] => inl (TypeError "Cannot read properties of undefined (reading 'transcript')")
      | transcript :: _ =>
          if isFinal r
          then collect_transcripts rest (finalTranscript +:+ transcript) interimTranscript
          else collect_transcripts rest finalTranscript (interimTranscript +:+ transcript)
      end
  end.

Definition lift {A : Type} (r : Exn + A) : JS A := fun w => (r, w).

(** Truthiness of a string: every string but the empty one. *)
Definition truthy (s : string) : bool :=
  match s with
  | EmptyString => false
  | String _ _ => true
  end.

Definition handleSpeechResult (event : SpeechRecognitionEvent) : JS unit :=
  try_catch
    (transcripts <- lift (collect_transcripts
                            (drop (resultIndex event) (results event)) "" "") ;;
     let finalTranscript := fst transcripts in
     let interimTranscript := snd transcripts in
     (if truthy finalTranscript
      then console_log ["🎤 Final transcript:"; finalTranscript] ;;;
           processVoiceInput finalTranscript
      else ret tt) ;;;
     (if truthy interimTranscript
      then console_log ["🎤 Interim transcript:"; interimTranscript]
      else ret tt))
    (fun error =>
       console_error ["❌ Error handling speech result:"; exn_message error]).

(** ** [testVoiceOutput] and the language setters *)

Definition testVoiceOutput : JS unit :=
  try_catch
    (console_log ["🔊 Testing voice output..."] ;;;
     syn <- read_synthesis ;;
     match syn with
     | Some queue =>
         let utterance :=
           {| utt_text := "Hello, this is a test of the SEEKER voice interface.";
              utt_lang := "en-US"; utt_rate := num_1; utt_pitch := num_1 |} in
         (fun w => (inr tt, set_synthesis (Some (queue ++ [utterance])) w)) ;;;
         console_log ["✅ Voice output test started"]
     | None => console_error ["❌ Speech synthesis not available"]
     end)
    (fun error =>
       console_error ["❌ Error testing voice output:"; exn_message error]).

Definition updateRecognitionLanguage (language : string) : JS unit :=
  try_catch
    (rec <- read_recognition ;;
     match rec with
     | Some r =>
         (fun w => (inr tt, set_recognition (Some (put_lang language r)) w)) ;;;
         console_log ["✅ Recognition language updated:"; language]
     | None => ret tt
     end)
    (fun error =>
       console_error ["❌ Error updating recognition language:"; exn_message error]).

Definition updateSynthesisLanguage (language : string) : JS unit :=
  try_catch
    (console_log ["✅ Synthesis language updated:"; language])
    (fun error =>
       console_error ["❌ Error updating synthesis language:"; exn_message error]).

(** ** Observations *)

(** Every Number the random source holds is in the range of [Math.random]. *)
Definition random_in_range (w : World) : Prop :=
  forall n, unit_interval (random_source w n) = true.

(** What the page shows in the results element, if it has one. *)
Definition shown (w : World) : option string :=
  innerHTML <$> (document w !! "classificationResults").

(** The state a method leaves behind. *)
Definition after {A : Type} (m : JS A) (w : World) : World := snd (m w).

Definition log_entry (a : list string) : LogEntry := {| level := LvlLog; args := a |}.

End Voice.

(* ===================================================================== *)
(** * The Agent Router                                                    *)
(* ===================================================================== *)

Module Router.
Local Open Scope Q_scope.

(** The service [agent_router.py] is not among the sources at hand.  The
    records follow section 3 of the design document, the algorithm its
    section 4.2. *)

(** Modelled from the spec: a Category (section 3), whose declaration is
    missing: identifier, label, (phrase, weight) pairs, required capability
    tags, confidence threshold. *)
Record Category :=
  { cat_id : string;
    cat_label : string;
    cat_phrases : list (string * Q);
    cat_required : gset string;
    cat_threshold : Q }.

(** Modelled from the spec: a ClassificationResult (section 3), whose
    declaration is missing. *)
Record ClassificationResult :=
  { cr_request : string;
    cr_scores : list (string * Q);
    cr_primary : Category;
    cr_confidence : Q;
    cr_secondary : list Category }.

(** Modelled from the spec: an Agent (section 3), whose declaration is
    missing; the registry maps its identifier to it. *)
Record Agent :=
  { agent_caps : gset string;
    agent_weights : gmap string Q;
    success_rate : Q;
    mean_satisfaction : Q;
    mean_latency : Q }.

(** Modelled from the spec: one (agent identifier, assignment confidence)
    entry of a RoutingDecision, whose declaration is missing; [asg_category]
    records the category the agent was selected for. *)
Record Assignment :=
  { asg_agent : string; asg_confidence : Q; asg_category : string }.

(** Modelled from the spec: a RoutingDecision (section 3), whose
    declaration is missing. *)
Record RoutingDecision :=
  { rd_request : string;
    rd_assignments : list Assignment;
    rd_confidence : Q;
    rd_escalated : bool }.

(** Modelled from the spec: the maximum fan-out count, default 3. *)
Definition max_fanout : nat := 3.

(** Modelled from the spec: the capability filter of the missing router,
    "agents whose capability tags are a superset of the category's required
    capabilities". *)
Definition capable (c : Category) (a : Agent) : bool :=
  bool_decide (cat_required c ⊆ agent_caps a).

(** Modelled from the spec: the learned routing weight of the missing Agent
    record, "real, default 1.0". *)
Definition routing_weight (a : Agent) (category : string) : Q :=
  default 1 (agent_weights a !! category).

(** Modelled from the spec: the candidate score of the missing router,
    [classification.confidence * agent.routingWeight(category) *
    agent.successRate]. *)
Definition candidate_score (confidence : Q) (c : Category) (a : Agent) : Q :=
  confidence * routing_weight a (cat_id c) * success_rate a.

(** Modelled from the spec: the order of candidates in the missing router,
    higher score first, "ties broken by agent identifier ordering". *)
Definition ranks_before (x y : Assignment) : Prop :=
  asg_confidence y < asg_confidence x
  \/ (asg_confidence x == asg_confidence y
      /\ String.leb (asg_agent x) (asg_agent y) = true).

#[global] Instance ranks_before_dec (x y : Assignment) : Decision (ranks_before x y).
Proof.
  unfold ranks_before.
  destruct (Qlt_le_dec (asg_confidence y) (asg_confidence x)) as [Hlt | Hle].
  - left. by left.
  - destruct (Qeq_dec (asg_confidence x) (asg_confidence y)) as [Heq | Hne].
    + destruct (String.leb (asg_agent x) (asg_agent y)) eqn:Hs.
      * left. right. done.
      * right. intros [H | [_ H]]; [ | done]. apply (Qlt_not_le _ _ H Hle).
    + right. intros [H | [H _]]; [apply (Qlt_not_le _ _ H Hle) | done].
Defined.

(** Modelled from the spec: the scored candidates of one category in the
    missing router, best first. *)
Definition candidates (confidence : Q) (c : Category) (registry : gmap string Agent)
  : list Assignment :=
  merge_sort ranks_before
    (omap (fun '(id, a) =>
             if capable c a
             then Some {| asg_agent := id;
                          asg_confidence := candidate_score confidence c a;
                          asg_category := cat_id c |}
             else None)
          (map_to_list registry)).

(** Modelled from the spec: the threshold test of the missing router,
    "candidates above a per-category confidence threshold". *)
Definition above_threshold (c : Category) (x : Assignment) : bool :=
  match Qlt_le_dec (cat_threshold c) (asg_confidence x) with
  | left _ => true
  | right _ => false
  end.

(** Modelled from the spec: the qualifying candidates of one category in
    the missing router. *)
Definition qualifying (confidence : Q) (c : Category) (registry : gmap string Agent)
  : list Assignment :=
  List.filter (above_threshold c) (candidates confidence c registry).

(** Modelled from the spec: the "top candidate score" of a category in the
    missing router; none when no agent is capable. *)
Definition top_score (confidence : Q) (c : Category) (registry : gmap string Agent)
  : option Q :=
  asg_confidence <$> head (candidates confidence c registry).

(** Modelled from the spec: [route(classification, agentRegistry)] of the
    missing router.  The qualifying candidates of the primary category, then
    of each secondary category, cut at the fan-out count; the escalation flag
    is set exactly when no agent is selected. *)
Definition route_with (fanout : nat) (cr : ClassificationResult)
    (registry : gmap string Agent) : RoutingDecision :=
  let selected :=
    take fanout
      (concat (map (fun c => qualifying (cr_confidence cr) c registry)
                   (cr_primary cr :: cr_secondary cr))) in
  {| rd_request := cr_request cr;
     rd_assignments := selected;
     rd_confidence := default 0 (asg_confidence <$> head selected);
     rd_escalated := bool_decide (selected = []) |}.

(** Modelled from the spec: [route] of the missing router at the default
    fan-out. *)
Definition route : ClassificationResult -> gmap string Agent -> RoutingDecision :=
  route_with max_fanout.

End Router.


(* ===================================================================== *)
(** * The Adaptive Loop (SAIR)                                            *)
(* ===================================================================== *)

Module Sair.
Import Router.
Local Open Scope Q_scope.

(** The service [sair_loop.py] is not among the sources at hand.  The records
    follow section 3 of the design document, the four sub-phases its section
    4.3; the tunable constants of the text are the fields of [Config]. *)

(** Modelled from the spec: the per-agent response summary of an
    OutcomeRecord (section 3), whose declaration is missing. *)
Record AgentResponse :=
  { resp_agent : string; resp_success : bool; resp_latency : Q; resp_confidence : Q }.

(** Modelled from the spec: an OutcomeRecord (section 3), whose declaration
    is missing; feedback is optional. *)
Record OutcomeRecord :=
  { out_request : string;
    out_classification : ClassificationResult;
    out_decision : RoutingDecision;
    out_responses : list AgentResponse;
    out_satisfaction : option Q;
    out_correct : option bool }.

(** Modelled from the spec: the (category, phrase, weight delta) entry of a
    LearningUpdate, whose declaration is missing. *)
Record PhraseAdjustment :=
  { pa_category : string; pa_phrase : string; pa_delta : Q }.

(** Modelled from the spec: the (category, agent, weight delta, new
    threshold) entry of a LearningUpdate, whose declaration is missing. *)
Record RoutingAdjustment :=
  { ra_category : string; ra_agent : string; ra_delta : Q; ra_threshold : Q }.

(** Modelled from the spec: a LearningUpdate (section 3), whose declaration
    is missing. *)
Record LearningUpdate :=
  { lu_phrases : list PhraseAdjustment; lu_routing : list RoutingAdjustment }.

(** Modelled from the spec: the Category Model and the Agent registry of
    the missing loop, swapped as one versioned snapshot (sections 5 and 6). *)
Record Snapshot :=
  { version : nat;
    categories : gmap string Category;
    agents : gmap string Agent }.

(** Modelled from the spec: the configurable constants of the missing loop
    (bounds, margins and steps that section 4.3 names without fixing). *)
Record Config :=
  { window_size : nat;        (* last K records *)
    step_bound : Q;           (* per-cycle bound on a routing weight, e.g. 1/10 *)
    tolerance : Q;            (* margin around the baseline *)
    damping : Q;              (* factor applied to the gain of a pair that did not help *)
    low_confidence : Q;       (* confidence under which a wrong classification counts *)
    phrase_decay : Q;         (* relative decay of a phrase weight *)
    target_escalation : Q;    (* escalation rate aimed at *)
    threshold_step : Q }.     (* step of a threshold update *)

(** Modelled from the spec: what the missing loop remembers from one cycle
    to the next, for its Interpret phase. *)
Record LoopState :=
  { gains : gmap (string * string) Q;
    last_satisfaction : option Q;
    last_adjusted : list (string * string) }.

(** Modelled from the spec: the bounded trailing window of the missing
    loop, the last K records of the outcome log. *)
Definition window (cfg : Config) (log : list OutcomeRecord) : list OutcomeRecord :=
  drop (length log - window_size cfg) log.

(** *** Search *)

(** Modelled from the spec: the Search phase of the missing loop.  One
    satisfaction sample per (category, agent) assignment of a record that
    received feedback; records without feedback contribute nothing. *)
Definition samples (w : list OutcomeRecord) : list ((string * string) * Q) :=
  flat_map (fun r =>
      match out_satisfaction r with
      | Some s => map (fun a => ((asg_category a, asg_agent a), s))
                      (rd_assignments (out_decision r))
      | None => []
      end) w.

(** Modelled from the spec: Search, sum and count of the samples of each
    pair. *)
Definition tally (xs : list ((string * string) * Q)) : gmap (string * string) (Q * nat) :=
  foldr (fun '(k, s) m =>
           partial_alter (fun o => match o with
                                   | Some (t, n) => Some (t + s, S n)
                                   | None => Some (s, 1%nat)
                                   end) k m) ∅ xs.

(** Modelled from the spec: Search, the mean of a tally. *)
Definition mean_of (t : Q * nat) : Q := fst t / inject_Z (Z.of_nat (snd t)).

(** Modelled from the spec: Search, mean satisfaction per category and
    agent over the window. *)
Definition pair_satisfaction (w : list OutcomeRecord) : gmap (string * string) Q :=
  mean_of <$> tally (samples w).

(** Modelled from the spec: the moving baseline of the missing loop, the
    mean satisfaction over all samples of the window. *)
Definition baseline (w : list OutcomeRecord) : option Q :=
  match samples w with
  | [] => None
  | xs => Some (mean_of (foldr (fun x acc => snd x + acc) 0 xs, length xs))
  end.

(** *** Act *)

(** Modelled from the spec: the per-cycle bound of the missing Act phase,
    "weight changes are bounded per cycle". *)
Definition clamp (lo hi x : Q) : Q := Qmax lo (Qmin hi x).

(** Modelled from the spec: the routing weight of a pair in a registry of
    the missing loop. *)
Definition weight_of (ags : gmap string Agent) (agent category : string) : Q :=
  match ags !! agent with
  | Some a => routing_weight a category
  | None => 1
  end.

(** Modelled from the spec: the threshold of a category in a Category Model
    of the missing loop. *)
Definition threshold_of (cats : gmap string Category) (category : string) : Q :=
  match cats !! category with
  | Some c => cat_threshold c
  | None => 0
  end.

(** Modelled from the spec: the Act phase of the missing loop.  A decrease
    below the baseline by more than the margin, an increase above it by more
    than the margin, each bounded relative to the current weight; nothing
    inside the margin. *)
Definition propose (cfg : Config) (st : LoopState) (snap : Snapshot) (base : Q)
    (key : string * string) (mean : Q) : option Q :=
  let w := weight_of (agents snap) (snd key) (fst key) in
  let gain := default 1 (gains st !! key) in
  let limit := step_bound cfg * Qabs w in
  if Qlt_le_dec mean (base - tolerance cfg) then
    Some (clamp (- limit) limit (gain * (mean - base) * w))
  else if Qlt_le_dec (base + tolerance cfg) mean then
    Some (clamp (- limit) limit (gain * (mean - base) * w))
  else None.

(** *** Refine *)

(** Modelled from the spec: Refine, the records of the window classified
    under a category. *)
Definition records_of (w : list OutcomeRecord) (category : string) : list OutcomeRecord :=
  List.filter (fun r => String.eqb (cat_id (cr_primary (out_classification r))) category) w.

(** Modelled from the spec: Refine, the share of escalated records. *)
Definition escalation_rate (rs : list OutcomeRecord) : Q :=
  inject_Z (Z.of_nat (length (List.filter (fun r => rd_escalated (out_decision r)) rs)))
  / inject_Z (Z.of_nat (length rs)).

(** Modelled from the spec: Refine, the updated threshold of a category,
    lowered when it escalates too often and raised when it escalates too
    seldom, kept when the window has no record of the category. *)
Definition new_threshold (cfg : Config) (snap : Snapshot) (w : list OutcomeRecord)
    (category : string) : Q :=
  let old := threshold_of (categories snap) category in
  match records_of w category with
  | [] => old
  | rs =>
      let rate := escalation_rate rs in
      if Qlt_le_dec (target_escalation cfg) rate then Qmax 0 (old - threshold_step cfg)
      else if Qlt_le_dec rate (target_escalation cfg) then Qmin 1 (old + threshold_step cfg)
      else old
  end.

(** Modelled from the spec: Refine, the categories with a
    low-confidence-but-wrong classification in the window. *)
Definition poor_categories (cfg : Config) (w : list OutcomeRecord) : gset string :=
  list_to_set
    (omap (fun r =>
             match out_correct r with
             | Some false =>
                 if Qlt_le_dec (cr_confidence (out_classification r)) (low_confidence cfg)
                 then Some (cat_id (cr_primary (out_classification r)))
                 else None
             | _ => None
             end) w).

(** Modelled from the spec: Refine, the decay of the phrase weights of those
    categories. *)
Definition phrase_adjustments (cfg : Config) (snap : Snapshot) (w : list OutcomeRecord)
  : list PhraseAdjustment :=
  flat_map (fun id =>
      match categories snap !! id with
      | Some c => map (fun '(p, pw) => {| pa_category := id; pa_phrase := p;
                                           pa_delta := - (phrase_decay cfg * pw) |})
                      (cat_phrases c)
      | None => []
      end) (elements (poor_categories cfg w)).

(** Modelled from the spec: the routing entries of the LearningUpdate of the
    missing loop, one per pair Act proposes a change for. *)
Definition routing_adjustments (cfg : Config) (st : LoopState) (snap : Snapshot)
    (w : list OutcomeRecord) : list RoutingAdjustment :=
  match baseline w with
  | None => []
  | Some base =>
      omap (fun '(key, mean) =>
              match propose cfg st snap base key mean with
              | Some d => Some {| ra_category := fst key; ra_agent := snd key;
                                  ra_delta := d;
                                  ra_threshold := new_threshold cfg snap w (fst key) |}
              | None => None
              end)
           (map_to_list (pair_satisfaction w))
  end.

(** *** Interpret *)

(** Modelled from the spec: Interpret, did the previous cycle's adjustments
    help, judged on the aggregate satisfaction. *)
Definition helped (st : LoopState) (base : option Q) : bool :=
  match last_satisfaction st, base with
  | Some before, Some now => if Qlt_le_dec now before then false else true
  | _, _ => true
  end.

(** Modelled from the spec: Interpret, the damping of the step size of the
    affected pairs. *)
Definition dampen (cfg : Config) (keys : list (string * string))
    (g : gmap (string * string) Q) : gmap (string * string) Q :=
  foldr (fun k acc => <[k := default 1 (acc !! k) * damping cfg]> acc) g keys.

(** Modelled from the spec: the Interpret phase of the missing loop. *)
Definition interpret (cfg : Config) (st : LoopState) (w : list OutcomeRecord)
    (adjusted : list (string * string)) : LoopState :=
  {| gains := if helped st (baseline w) then gains st
              else dampen cfg (last_adjusted st) (gains st);
     last_satisfaction := match baseline w with
                          | Some b => Some b
                          | None => last_satisfaction st
                          end;
     last_adjusted := adjusted |}.

(** *** One cycle *)

(** Modelled from the spec: the LearningUpdate one cycle of the missing loop
    computes from its window. *)
Definition learning_update (cfg : Config) (st : LoopState) (snap : Snapshot)
    (log : list OutcomeRecord) : LearningUpdate :=
  let w := window cfg log in
  {| lu_phrases := phrase_adjustments cfg snap w;
     lu_routing := routing_adjustments cfg st snap w |}.

(** Modelled from the spec: assignment of one routing weight of an Agent. *)
Definition put_weight (category : string) (v : Q) (a : Agent) : Agent :=
  {| agent_caps := agent_caps a;
     agent_weights := <[category := v]> (agent_weights a);
     success_rate := success_rate a;
     mean_satisfaction := mean_satisfaction a;
     mean_latency := mean_latency a |}.

(** Modelled from the spec: assignment of the threshold of a Category. *)
Definition put_threshold (v : Q) (c : Category) : Category :=
  {| cat_id := cat_id c; cat_label := cat_label c; cat_phrases := cat_phrases c;
     cat_required := cat_required c; cat_threshold := v |}.

(** Modelled from the spec: a weight delta applied to one phrase of a
    Category. *)
Definition bump_phrase (phrase : string) (delta : Q) (c : Category) : Category :=
  {| cat_id := cat_id c; cat_label := cat_label c;
     cat_phrases := map (fun '(p, pw) => if String.eqb p phrase then (p, pw + delta) else (p, pw))
                        (cat_phrases c);
     cat_required := cat_required c; cat_threshold := cat_threshold c |}.

(** Modelled from the spec: the routing weight deltas of a LearningUpdate
    applied to the Agent registry. *)
Definition apply_routing (adj : list RoutingAdjustment) (ags : gmap string Agent)
  : gmap string Agent :=
  foldl (fun m r =>
           alter (fun a => put_weight (ra_category r)
                             (routing_weight a (ra_category r) + ra_delta r) a)
                 (ra_agent r) m) ags adj.

(** Modelled from the spec: the new thresholds of a LearningUpdate applied to
    the Category Model. *)
Definition apply_thresholds (adj : list RoutingAdjustment) (cats : gmap string Category)
  : gmap string Category :=
  foldl (fun m r => alter (put_threshold (ra_threshold r)) (ra_category r) m) cats adj.

(** Modelled from the spec: the phrase weight deltas of a LearningUpdate
    applied to the Category Model. *)
Definition apply_phrases (adj : list PhraseAdjustment) (cats : gmap string Category)
  : gmap string Category :=
  foldl (fun m p => alter (bump_phrase (pa_phrase p) (pa_delta p)) (pa_category p) m) cats adj.

(** Modelled from the spec: the commit point of the missing loop, both
    tables replaced together under the next version number. *)
Definition apply_update (u : LearningUpdate) (snap : Snapshot) : Snapshot :=
  {| version := S (version snap);
     categories := apply_phrases (lu_phrases u)
                     (apply_thresholds (lu_routing u) (categories snap));
     agents := apply_routing (lu_routing u) (agents snap) |}.

(** Modelled from the spec: one cycle of the missing Adaptive Loop, from the
    outcome log to the next loop state and the next snapshot. *)
Definition adaptive_cycle (cfg : Config) (st : LoopState) (snap : Snapshot)
    (log : list OutcomeRecord) : LoopState * Snapshot :=
  let u := learning_update cfg st snap log in
  (interpret cfg st (window cfg log)
     (map (fun r => (ra_category r, ra_agent r)) (lu_routing u)),
   apply_update u snap).

End Sair.

(* ===================================================================== *)
(** * Facts about binary64 rounding                                       *)
(* ===================================================================== *)

Module Binary64Facts.
Import Binary64.

Lemma digits2_pos_size (p : positive) : digits2_pos p = Pos.size p.
Proof. induction p as [p IH | p IH |]; simpl; congruence. Qed.

Lemma digits2_bounds (p : positive) :
  2 ^ (Zpos (digits2_pos p) - 1) <= Zpos p < 2 ^ Zpos (digits2_pos p).
Proof.
  rewrite digits2_pos_size. split.
  - pose proof (Pos.size_le p) as H.
    apply Pos2Z.pos_le_pos in H. rewrite Pos2Z.inj_pow in H.
    replace (Zpos (Pos.size p)) with (Z.succ (Zpos (Pos.size p) - 1)) in H by lia.
    rewrite Z.pow_succ_r in H by lia. lia.
  - pose proof (Pos.size_gt p) as H.
    apply Pos2Z.pos_lt_pos in H. now rewrite Pos2Z.inj_pow in H.
Qed.

Lemma digits2_le (p : positive) (n : Z) : Zpos p < 2 ^ n -> Zpos (digits2_pos p) <= n.
Proof.
  intros H. destruct (Z_le_gt_dec (Zpos (digits2_pos p)) n) as [|Hgt]; [done|].
  pose proof (digits2_bounds p) as [Hlo _].
  assert (0 <= n \/ n < 0) as [Hn|Hn] by lia.
  - assert (2 ^ n <= 2 ^ (Zpos (digits2_pos p) - 1)) by (apply Z.pow_le_mono_r; lia). lia.
  - rewrite Z.pow_neg_r in H by lia. lia.
Qed.

Lemma digits2_ge (p : positive) (n : Z) : 2 ^ n <= Zpos p -> n < Zpos (digits2_pos p).
Proof.
  intros H. destruct (Z_lt_ge_dec n (Zpos (digits2_pos p))) as [|Hge]; [done|].
  pose proof (digits2_bounds p) as [_ Hhi].
  assert (2 ^ Zpos (digits2_pos p) <= 2 ^ n) by (apply Z.pow_le_mono_r; lia). lia.
Qed.

Lemma shr_1_nonneg (m : Z) (r s : bool) :
  0 <= m ->
  shr_1 {| shr_m := m; shr_r := r; shr_s := s |}
  = {| shr_m := m / 2; shr_r := Z.odd m; shr_s := r || s |}.
Proof.
  intros Hm. rewrite <- Z.div2_div.
  destruct m as [|p|p]; [done| |lia]. by destruct p.
Qed.

Lemma iter_pos_nat {A : Type} (f : A -> A) (p : positive) (x : A) :
  SpecFloat.iter_pos f p x = Nat.iter (Pos.to_nat p) f x.
Proof.
  revert x. induction p as [p IH | p IH |]; intros x.
  - rewrite Pos2Nat.inj_xI. cbn [SpecFloat.iter_pos]. rewrite !IH.
    replace (S (2 * Pos.to_nat p)) with (Pos.to_nat p + S (Pos.to_nat p))%nat by lia.
    by rewrite Nat.iter_add, Nat.iter_succ_r.
  - rewrite Pos2Nat.inj_xO. cbn [SpecFloat.iter_pos]. rewrite !IH.
    replace (2 * Pos.to_nat p)%nat with (Pos.to_nat p + Pos.to_nat p)%nat by lia.
    by rewrite Nat.iter_add.
  - done.
Qed.

(** The record after [n >= 1] one-bit right shifts of [M]: quotient, round
    bit and sticky bit. *)
Definition shr_after (M n : Z) : shr_record :=
  {| shr_m := M / 2 ^ n;
     shr_r := Z.odd (M / 2 ^ (n - 1));
     shr_s := negb (M mod 2 ^ (n - 1) =? 0) |}.

Lemma shr_iter_after (M : Z) (n : nat) :
  0 <= M ->
  Nat.iter (S n) shr_1 {| shr_m := M; shr_r := false; shr_s := false |}
  = shr_after M (Z.of_nat (S n)).
Proof.
  intros HM. induction n as [|n IH].
  - change (Nat.iter 1 shr_1 ?x) with (shr_1 x).
    rewrite shr_1_nonneg by done. unfold shr_after.
    change (Z.of_nat 1 - 1) with 0. change (Z.of_nat 1) with 1.
    change (2 ^ 0) with 1. change (2 ^ 1) with 2.
    by rewrite Z.mod_1_r, Z.div_1_r.
  - rewrite Nat.iter_succ, IH. unfold shr_after.
    rewrite shr_1_nonneg by (apply Z.div_pos; lia).
    assert (Hn : 0 <= Z.of_nat n) by lia.
    replace (Z.of_nat (S (S n))) with (Z.of_nat n + 2) by lia.
    replace (Z.of_nat (S n)) with (Z.of_nat n + 1) by lia.
    replace (Z.of_nat n + 2 - 1) with (Z.of_nat n + 1) by lia.
    replace (Z.of_nat n + 1 - 1) with (Z.of_nat n) by lia.
    set (k := Z.of_nat n) in *.
    assert (Hp : 0 < 2 ^ k) by (apply Z.pow_pos_nonneg; lia).
    f_equal.
    + replace (k + 2) with ((k + 1) + 1) by lia.
      rewrite (Z.pow_add_r 2 (k + 1) 1) by lia.
      rewrite Z.div_div by lia. done. 
    + rewrite (Z.pow_add_r 2 k 1) by lia.
      rewrite Z.rem_mul_r by lia. rewrite Zodd_mod.
      change (2 ^ 1) with 2.
      pose proof (Z.mod_pos_bound (M / 2 ^ k) 2 ltac:(lia)).
      pose proof (Z.mod_pos_bound M (2 ^ k) ltac:(lia)).
      destruct (Z.eqb_spec ((M / 2^k) mod 2) 1), (Z.eqb_spec (M mod 2^k) 0); simpl;
        symmetry; apply negb_true_iff || apply negb_false_iff; lia.
Qed.

Lemma shr_pos (M E : Z) (p : positive) :
  0 <= M ->
  shr {| shr_m := M; shr_r := false; shr_s := false |} E (Zpos p)
  = (shr_after M (Zpos p), E + Zpos p).
Proof.
  intros HM. unfold shr. rewrite iter_pos_nat.
  destruct (Pos2Nat.is_succ p) as [n Hn]. rewrite Hn, shr_iter_after by done.
  by rewrite <- Hn, positive_nat_Z.
Qed.

(** Rounding to nearest after a shift by [k] bits: the quotient or its
    successor, whichever is within half a unit of the shifted value. *)
Lemma round_after (M k : Z) :
  0 <= M -> 0 < k ->
  let m1 := round_nearest_even (shr_m (shr_after M k))
              (loc_of_shr_record (shr_after M k)) in
  (m1 = M / 2 ^ k /\ 2 * (M mod 2 ^ k) <= 2 ^ k)
  \/ (m1 = M / 2 ^ k + 1 /\ 2 ^ k <= 2 * (M mod 2 ^ k)).
Proof.
  intros HM Hk. unfold shr_after. cbn [shr_m].
  set (q := M / 2 ^ k). set (h := 2 ^ (k - 1)).
  assert (Hh : 0 < h) by (apply Z.pow_pos_nonneg; lia).
  assert (E2 : 2 ^ k = h * 2).
  { unfold h. replace k with (Z.succ (k - 1)) at 1 by lia.
    rewrite Z.pow_succ_r by lia. lia. }
  rewrite E2, Z.rem_mul_r by lia. rewrite Zodd_mod.
  pose proof (Z.mod_pos_bound (M / h) 2 ltac:(lia)) as Hb.
  pose proof (Z.mod_pos_bound M h ltac:(lia)) as Hr.
  destruct (Z.eqb_spec ((M / h) mod 2) 1) as [Hodd|Hodd],
           (Z.eqb_spec (M mod h) 0) as [Hs|Hs]; cbn.
  - destruct (Z.even q); [left | right]; lia.
  - right; lia.
  - left; lia.
  - left; lia.
Qed.

Lemma shr_nonpos (mrs : shr_record) (e n : Z) : n <= 0 -> shr mrs e n = (mrs, e).
Proof. intros Hn. destruct n; [done | lia | done]. Qed.

Lemma fexp_eq (e : Z) : fexp prec emax e = Z.max (e - 53) (-1074).
Proof. reflexivity. Qed.

(** Second half of [binary_round_aux]: renormalise the rounded mantissa
    and tag the result. *)
Definition finish (m1 e1 : Z) : spec_float :=
  let '(mrs, e2) := shr_fexp prec emax m1 e1 loc_Exact in
  match shr_m mrs with
  | Z0 => S754_zero false
  | Zpos m => if e2 <=? emax - prec then S754_finite false m e2 else S754_infinity false
  | Zneg _ => S754_nan
  end.

Lemma round_aux_finish (M E : Z) :
  binary_round_aux prec emax false M E loc_Exact
  = let '(mrs, e1) := shr_fexp prec emax M E loc_Exact in
    finish (round_nearest_even (shr_m mrs) (loc_of_shr_record mrs)) e1.
Proof. unfold binary_round_aux, finish. by destruct (shr_fexp prec emax M E loc_Exact). Qed.

(** A result of rounding at exponent [e]: [+0], or a positive Number whose
    exponent is [e] or [e + 1]. *)
Definition nonneg_at (x : spec_float) (e : Z) : Prop :=
  x = S754_zero false
  \/ exists m1 e1, x = S754_finite false m1 e1 /\ e <= e1 <= e + 1.

Section Scaled.

(** Exact value of a finite Number in units of [2^-scale].  The unit is fine
    enough for every value met below to be an integer multiple of it. *)
Variable scale : Z.
Hypothesis scale_ge : 1200 <= scale.

Definition scaled (x : spec_float) : Z :=
  match x with
  | S754_finite s m e => cond_Zopp s (Zpos m * 2 ^ (e + scale))
  | _ => 0
  end.

Lemma finish_value (m1 e1 : Z) :
  0 <= m1 <= 2 ^ 53 -> -1074 <= e1 <= 900 ->
  nonneg_at (finish m1 e1) e1 /\ scaled (finish m1 e1) = m1 * 2 ^ (e1 + scale).
Proof.
  intros Hm He. unfold finish, shr_fexp.
  assert (m1 = 0 \/ 0 < m1 < 2 ^ 53 \/ m1 = 2 ^ 53) as [-> | [Hlt | ->]] by lia.
  - rewrite shr_nonpos by (cbn [Zdigits2]; rewrite fexp_eq; lia).
    cbn. split; [by left | done].
  - destruct m1 as [|p|p]; [lia | | lia].
    rewrite shr_nonpos.
    2:{ cbn [Zdigits2]. rewrite fexp_eq.
        pose proof (digits2_le p 53 ltac:(lia)). lia. }
    cbn [shr_record_of_loc shr_m].
    replace (e1 <=? emax - prec) with true by (symmetry; apply Z.leb_le; unfold emax, prec; lia).
    split; [right; exists p, e1; split; [done | lia] | done].
  - change (Zdigits2 (2 ^ 53)) with 54. rewrite fexp_eq.
    replace (Z.max (54 + e1 - 53) (-1074) - e1) with 1 by lia.
    cbn [shr_record_of_loc shr SpecFloat.iter_pos shr_1 shr_m].
    change (2 ^ 53) with 9007199254740992. cbn [shr_1 shr_m orb].
    replace (e1 + 1 <=? emax - prec) with true by (symmetry; apply Z.leb_le; unfold emax, prec; lia).
    split; [right; eexists _, _; split; [done | lia] |].
    cbn [scaled cond_Zopp].
    replace (e1 + 1 + scale) with (Z.succ (e1 + scale)) by lia.
    rewrite Z.pow_succ_r by (lia). lia.
Qed.

(** Rounding to nearest at precision 53: the result lies within half a unit
    [u] of the exact value [X], and never crosses a multiple of [u]. *)
Lemma round_aux_enclosure (M : positive) (E : Z) :
  let e' := fexp prec emax (Zpos (digits2_pos M) + E) in
  let x := binary_round_aux prec emax false (Zpos M) E loc_Exact in
  let X := Zpos M * 2 ^ (E + scale) in
  let u := 2 ^ (e' + scale) in
  - scale <= E -> E <= e' -> e' <= 900 ->
  nonneg_at x e'
  /\ (forall A, (u | A) -> A <= X -> A <= scaled x)
  /\ (forall B, (u | B) -> X <= B -> scaled x <= B)
  /\ 2 * Z.abs (scaled x - X) <= u.
Proof.
  intros e' x X u HE Hk He'. subst x. rewrite round_aux_finish.
  unfold shr_fexp. cbn [Zdigits2 shr_record_of_loc]. fold e'.
  assert (He'lo : -1074 <= e') by (unfold e'; rewrite fexp_eq; lia).
  assert (HD : Zpos (digits2_pos M) + E - 53 <= e') by (unfold e'; rewrite fexp_eq; lia).
  pose proof (digits2_bounds M) as [_ HMhi].
  assert (Hw : 0 < 2 ^ (E + scale)) by (apply Z.pow_pos_nonneg; lia).
  destruct (Z.eq_dec e' E) as [Heq | Hne].
  - rewrite shr_nonpos by lia. cbn [shr_m loc_of_shr_record round_nearest_even].
    assert (HM53 : Zpos M < 2 ^ 53).
    { eapply Z.lt_le_trans; [exact HMhi |]. apply Z.pow_le_mono_r; lia. }
    destruct (finish_value (Zpos M) E ltac:(lia) ltac:(lia)) as [Hn Hv].
    rewrite Hv. fold X.
    split; [by rewrite Heq |]. repeat split; [intros; lia | intros; lia | ].
    rewrite Z.sub_diag. cbn. subst u. pose proof (Z.pow_pos_nonneg 2 (e' + scale)). lia.
  - destruct (e' - E) as [|p|p] eqn:Ek; [lia | | lia].
    rewrite shr_pos by lia.
    pose proof (round_after (Zpos M) (Zpos p) ltac:(lia) ltac:(lia)) as Hr.
    cbn zeta in Hr.
    set (m1 := round_nearest_even _ _) in *.
    set (K := 2 ^ Zpos p) in *. set (w := 2 ^ (E + scale)) in *.
    assert (HK : 0 < K) by (apply Z.pow_pos_nonneg; lia).
    assert (Hu : u = K * w).
    { subst u K w. rewrite <- Z.pow_add_r by lia. f_equal. lia. }
    pose proof (Z.div_mod (Zpos M) K ltac:(lia)) as Hdm.
    pose proof (Z.mod_pos_bound (Zpos M) K HK) as Hrem.
    set (q := Zpos M / K) in *. set (r := Zpos M mod K) in *.
    assert (Hq0 : 0 <= q) by (apply Z.div_pos; lia).
    assert (Hq : q < 2 ^ 53).
    { apply Z.div_lt_upper_bound; [done |].
      eapply Z.lt_le_trans; [exact HMhi |].
      subst K. rewrite <- Z.pow_add_r by lia. apply Z.pow_le_mono_r; lia. }
    replace (E + Zpos p) with e' by lia.
    destruct (finish_value m1 e' ltac:(lia) ltac:(lia)) as [Hn Hv].
    rewrite Hv. fold u. 
    assert (HX : X = q * u + r * w) by (subst X; rewrite Hu; nia).
    assert (Hrw : 0 <= r * w < u) by (rewrite Hu; nia).
    repeat split; [done | | | ].
    + intros A [a ->] HA. assert (a <= q) by nia. nia.
    + intros B [b ->] HB. destruct Hr as [[-> Hr] | [-> Hr]]; [nia |].
      assert (0 < r * w) by nia. assert (q < b) by nia. nia.
    + destruct Hr as [[-> Hr] | [-> Hr]]; rewrite HX, Hu.
      * replace (q * (K * w) - (q * (K * w) + r * w)) with (- (r * w)) by ring.
        rewrite Z.abs_opp, Z.abs_eq by lia. nia.
      * replace ((q + 1) * (K * w) - (q * (K * w) + r * w)) with (K * w - r * w) by ring.
        rewrite Z.abs_eq by lia. nia.
Qed.

Lemma floor_scaled (x : spec_float) (e : Z) :
  nonneg_at x e -> - scale <= e -> Math_floor x = FlInteger (scaled x / 2 ^ scale).
Proof.
  intros [-> | (m1 & e1 & -> & He1)] He; [done |].
  cbn [Math_floor scaled cond_Zopp]. f_equal.
  destruct (Z.leb_spec 0 e1) as [Hpos | Hneg].
  - rewrite Z.pow_add_r by (lia).
    rewrite Z.mul_assoc, Z.div_mul; [done |].
    apply Z.pow_nonzero; lia.
  - replace (2 ^ scale) with (2 ^ (- e1) * 2 ^ (e1 + scale)).
    2:{ rewrite <- Z.pow_add_r by lia. f_equal; lia. }
    rewrite Z.div_mul_cancel_r; [done | |]; apply Z.pow_nonzero; lia.
Qed.

Lemma iter_xO_value (m d : positive) : Zpos (Pos.iter xO m d) = Zpos m * 2 ^ Zpos d.
Proof.
  induction d as [|d IH] using Pos.peano_ind.
  - cbn. lia.
  - rewrite Pos.iter_succ, Pos2Z.inj_xO, IH, Pos2Z.inj_succ, Z.pow_succ_r by lia. lia.
Qed.

Lemma shl_align_value (m : positive) (e e' : Z) :
  e' <= e -> shl_align m e e' = (Z.to_pos (Zpos m * 2 ^ (e - e')), Z.min e e').
Proof.
  intros He. unfold shl_align.
  destruct (e' - e) as [|d|d] eqn:Ed; [| lia |].
  - replace (e - e') with 0 by lia. rewrite Z.mul_1_r. cbn. f_equal. lia.
  - replace (e - e') with (Zpos d) by lia. rewrite <- iter_xO_value. cbn. f_equal. lia.
Qed.

Lemma shl_align_id (m : positive) (e e' : Z) : e <= e' -> shl_align m e e' = (m, e).
Proof. intros He. unfold shl_align. destruct (e' - e) eqn:Ed; [done | done | lia]. Qed.

Lemma below_one_exponent (m : positive) (e : Z) :
  bounded prec emax m e = true ->
  SFltb (S754_finite false m e) num_1 = true ->
  -1074 <= e <= -53 /\ Zpos m < 2 ^ 53.
Proof.
  intros Hb Hlt.
  unfold bounded, canonical_mantissa in Hb. rewrite fexp_eq in Hb.
  apply andb_true_iff in Hb as [Hc _]. apply Z.eqb_eq in Hc.
  pose proof (digits2_bounds m) as [Hlo Hhi].
  assert (Hd : Zpos (digits2_pos m) <= 53) by lia.
  assert (HM : Zpos m < 2 ^ 53).
  { eapply Z.lt_le_trans; [exact Hhi |]. apply Z.pow_le_mono_r; lia. }
  split; [| exact HM]. split; [lia |].
  unfold SFltb, SFcompare, num_1 in Hlt.
  destruct (e ?= -52) eqn:He; [ | | discriminate Hlt].
  - apply Z.compare_eq_iff in He.
    destruct (Pos.compare_cont Eq m 4503599627370496) eqn:Hm; try discriminate Hlt.
    assert (Hml : (m < 4503599627370496)%positive) by exact Hm.
    apply Pos2Z.pos_lt_pos in Hml.
    assert (Zpos (digits2_pos m) = 53) as Hd53 by lia.
    rewrite Hd53 in Hlo.
    assert (2 ^ (53 - 1) = 4503599627370496) by reflexivity. lia.
  - assert (e < -52) by exact He. lia.
Qed.

(** [Math.random()] returns [+0] or a positive Number at most [1 - 2^-53]. *)
Lemma unit_interval_inv (r : spec_float) :
  unit_interval r = true ->
  r = S754_zero false
  \/ exists m e, r = S754_finite false m e
       /\ -1074 <= e <= -53 /\ Zpos m < 2 ^ 53 /\ 0 < scaled r
       /\ scaled r + 2 ^ (scale - 53) <= 2 ^ scale.
Proof.
  destruct r as [[|] | | | [|] m e]; try discriminate; [by left |].
  cbn [unit_interval]. intros [Hb Hlt]%andb_true_iff. right. exists m, e.
  destruct (below_one_exponent m e Hb Hlt) as [He HM].
  split; [reflexivity |]. split; [lia |]. split; [exact HM |].
  cbn [scaled cond_Zopp].
  assert (Hp : 0 < 2 ^ (e + scale)) by (apply Z.pow_pos_nonneg; lia).
  split; [lia |].
  assert (Hle : 2 ^ (e + scale) <= 2 ^ (scale - 53)) by (apply Z.pow_le_mono_r; lia).
  assert (HP : 0 < 2 ^ (scale - 53)) by (apply Z.pow_pos_nonneg; lia).
  replace (2 ^ scale) with (2 ^ 53 * 2 ^ (scale - 53))
    by (rewrite <- Z.pow_add_r by lia; f_equal; lia).
  set (P := 2 ^ (scale - 53)) in *. set (W := 2 ^ (e + scale)) in *.
  clearbody P W. nia.
Qed.


Lemma pow2_divide (a b c : Z) : 0 <= a <= b -> (2 ^ a | c * 2 ^ b).
Proof.
  intros Hab. exists (c * 2 ^ (b - a)).
  rewrite <- Z.mul_assoc, <- Z.pow_add_r by lia. do 2 f_equal. lia.
Qed.

Lemma floor_bounds (x : spec_float) (e lo hi : Z) :
  nonneg_at x e -> - scale <= e ->
  lo * 2 ^ scale <= scaled x < (hi + 1) * 2 ^ scale ->
  exists z, Math_floor x = FlInteger z /\ lo <= z <= hi.
Proof.
  intros Hx He [Hlo Hhi]. eexists. split; [by eapply floor_scaled |].
  assert (0 < 2 ^ scale) by (apply Z.pow_pos_nonneg; lia).
  split.
  - apply Z.div_le_lower_bound; lia.
  - apply Z.lt_succ_r, Z.div_lt_upper_bound; lia.
Qed.

(** Product of a draw below one with a small integer constant [n], held as
    the Number [mc * 2^ec]. *)
Lemma mul_small_int (m mc : positive) (e ec n b : Z) :
  -1074 <= e <= -53 -> Zpos m < 2 ^ 53 ->
  -60 <= ec <= 0 -> 2 ^ 52 <= Zpos mc -> Zpos mc = n * 2 ^ (- ec) ->
  n < 2 ^ b -> 0 <= b <= 10 ->
  let r := S754_finite false m e in
  let y := js_mul r (S754_finite false mc ec) in
  let X := n * scaled r in
  let e' := fexp prec emax (Zpos (digits2_pos (m * mc)) + (e + ec)) in
  -1074 <= e' <= b - 53
  /\ (forall a, e + ec <= a -> 2 ^ (a + scale) <= X -> a - 52 <= e')
  /\ nonneg_at y e'
  /\ (forall A, (2 ^ (e' + scale) | A) -> A <= X -> A <= scaled y)
  /\ (forall B, (2 ^ (e' + scale) | B) -> X <= B -> scaled y <= B)
  /\ 2 * Z.abs (scaled y - X) <= 2 ^ (e' + scale).
Proof.
  intros He Hm Hec Hmc Hn Hnb Hb r y X e'.
  pose proof (digits2_bounds (m * mc)) as [HDlo HDhi].
  set (D := Zpos (digits2_pos (m * mc))) in *.
  assert (HX : Zpos (m * mc) * 2 ^ (e + ec + scale) = X).
  { subst X r. cbn [scaled cond_Zopp]. rewrite Pos2Z.inj_mul, Hn.
    replace (e + scale) with (- ec + (e + ec + scale)) by lia.
    rewrite (Z.pow_add_r 2 (- ec)) by lia. ring. }
  assert (HD53 : 53 <= D).
  { assert (52 < D); [| lia]. apply digits2_ge. rewrite Pos2Z.inj_mul. nia. }
  assert (HDb : D + (e + ec) <= b).
  { assert (D <= 53 + b - ec); [| lia]. apply digits2_le.
    rewrite Pos2Z.inj_mul, Hn.
    replace (53 + b - ec) with (53 + b + - ec) by lia.
    rewrite !Z.pow_add_r by lia.
    assert (0 < 2 ^ (- ec)) by (apply Z.pow_pos_nonneg; lia).
    assert (0 < 2 ^ b) by (apply Z.pow_pos_nonneg; lia).
    assert (0 < n) by nia.
    assert (Zpos m * n < 2 ^ 53 * 2 ^ b) by nia. nia. }
  assert (He' : e' = Z.max (D + (e + ec) - 53) (-1074)) by (subst e'; apply fexp_eq).
  split; [lia |]. split.
  { intros a Ha HaX. rewrite <- HX in HaX.
    assert (a - (e + ec) < D); [| lia]. apply digits2_ge.
    replace (a + scale) with (a - (e + ec) + (e + ec + scale)) in HaX by lia.
    rewrite Z.pow_add_r in HaX by lia.
    assert (0 < 2 ^ (e + ec + scale)) by (apply Z.pow_pos_nonneg; lia). nia. }
  pose proof (round_aux_enclosure (m * mc) (e + ec)) as Henc.
  cbn zeta in Henc. fold D in Henc. fold e' in Henc. rewrite HX in Henc.
  apply Henc; lia.
Qed.

(** The array index [Math.floor(Math.random() * 5)] is one of 0..4. *)
Lemma floor_mul_5_scaled (r : spec_float) :
  unit_interval r = true ->
  exists z, Math_floor (js_mul r num_5) = FlInteger z /\ 0 <= z <= 4.
Proof.
  intros [-> | (m & e & -> & He & Hm & Hpos & Hhi)]%unit_interval_inv.
  { exists 0. done. }
  destruct (mul_small_int m 5629499534213120 e (-50) 5 3)
    as (He' & Hlow & Hy & HA & HB & Hnear); try done.
  cbn zeta in *. fold num_5 in *.
  set (y := js_mul _ num_5) in *.
  set (e' := fexp prec emax _) in *.
  set (sr := scaled (S754_finite false m e)) in *.
  assert (HS : 0 < 2 ^ scale) by (apply Z.pow_pos_nonneg; lia).
  assert (HP : 0 < 2 ^ (scale - 53)) by (apply Z.pow_pos_nonneg; lia).
  apply (floor_bounds y e'); [done | lia |]. split.
  - apply HA; [apply Z.divide_0_r | lia].
  - destruct (Z_le_gt_dec (5 * sr) (4 * 2 ^ scale)) as [Hsmall | Hbig].
    + assert (scaled y <= 4 * 2 ^ scale); [| lia].
      apply HB; [apply pow2_divide; lia | done].
    + assert (He50 : e' = -50).
      { assert (2 - 52 <= e'); [| lia]. apply Hlow; [lia |].
        rewrite Z.pow_add_r by lia. change (2 ^ 2) with 4. lia. }
      rewrite He50 in Hnear.
      replace (-50 + scale) with (3 + (scale - 53)) in Hnear by lia.
      rewrite Z.pow_add_r in Hnear by lia. change (2 ^ 3) with 8 in Hnear.
      lia.
Qed.

(** Adding 80 to a Number between 0 and 20. *)
Lemma floor_add_80 (y : spec_float) (e : Z) :
  nonneg_at y e -> -1074 <= e <= -48 ->
  0 <= scaled y <= 20 * 2 ^ scale ->
  exists z, Math_floor (js_add y num_80) = FlInteger z /\ 80 <= z <= 100.
Proof.
  intros [-> | (my & ey & -> & Hey)] He Hy.
  { exists 80. done. }
  cbn [scaled cond_Zopp] in Hy.
  unfold js_add, SFadd, num_80.
  rewrite Z.min_l by lia.
  rewrite (shl_align_id my ey ey) by lia.
  rewrite (shl_align_value 5629499534213120 (-46) ey) by lia.
  cbn [fst cond_Zopp].
  set (k := 5629499534213120 * 2 ^ (-46 - ey)).
  assert (Hk : 2 ^ 53 <= k).
  { subst k. assert (2 ^ 1 <= 2 ^ (-46 - ey)) by (apply Z.pow_le_mono_r; lia).
    change (2 ^ 53) with (4503599627370496 * 2 ^ 1). nia. }
  assert (Hk0 : 0 < k) by (assert (0 < 2 ^ 53) by done; lia).
  rewrite <- (Pos2Z.inj_add my (Z.to_pos k)).
  set (s := (my + Z.to_pos k)%positive).
  assert (Hs : Zpos s = Zpos my + k) by (subst s; rewrite Pos2Z.inj_add, Z2Pos.id; lia).
  cbn [binary_normalize]. unfold binary_round.
  pose proof (digits2_bounds s) as [HDlo HDhi].
  assert (HX : Zpos s * 2 ^ (ey + scale)
               = Zpos my * 2 ^ (ey + scale) + 80 * 2 ^ scale).
  { rewrite Hs. subst k.
    assert (E : 2 ^ scale = 2 ^ (-46 - ey) * 2 ^ (ey + scale) * 2 ^ 46)
      by (rewrite <- !Z.pow_add_r by lia; f_equal; lia).
    rewrite E. change (2 ^ 46) with 70368744177664. ring. }
  clearbody s k.
  assert (HW : 0 < 2 ^ (ey + scale)) by (apply Z.pow_pos_nonneg; lia).
  assert (HS : 0 < 2 ^ scale) by (apply Z.pow_pos_nonneg; lia).
  assert (HD53 : 53 < Zpos (digits2_pos s)).
  { apply digits2_ge. rewrite Hs. etransitivity; [exact Hk |]. lia. }
  assert (HD7 : Zpos (digits2_pos s) + ey <= 7).
  { assert (Zpos (digits2_pos s) <= 7 - ey); [| lia]. apply digits2_le.
    assert (Zpos s * 2 ^ (ey + scale) < 2 ^ (7 - ey) * 2 ^ (ey + scale)); [| nia].
    rewrite <- Z.pow_add_r by lia. replace (7 - ey + (ey + scale)) with (7 + scale) by lia.
    rewrite (Z.pow_add_r 2 7 scale) by lia. change (2 ^ 7) with 128. lia. }
  rewrite shl_align_id by (rewrite fexp_eq; lia).
  pose proof (round_aux_enclosure s ey) as Henc. cbn zeta in Henc.
  set (e' := fexp prec emax _) in *.
  assert (He' : e' = Z.max (Zpos (digits2_pos s) + ey - 53) (-1074)) by (subst e'; apply fexp_eq).
  destruct Henc as (Hn & HA & HB & _); [lia | lia | lia |].
  apply (floor_bounds _ e'); [done | lia |]. split.
  - apply HA; [apply pow2_divide; lia | lia].
  - assert (scaled (binary_round_aux prec emax false (Zpos s) ey loc_Exact) <= 100 * 2 ^ scale); [| lia].
    apply HB; [apply pow2_divide; lia | lia].
Qed.

(** The percentage [Math.floor(Math.random() * 20 + 80)] is one of 80..100. *)
Lemma floor_confidence_scaled (r : spec_float) :
  unit_interval r = true ->
  exists z, Math_floor (js_add (js_mul r num_20) num_80) = FlInteger z /\ 80 <= z <= 100.
Proof.
  intros [-> | (m & e & -> & He & Hm & Hpos & Hhi)]%unit_interval_inv.
  { exists 80. done. }
  destruct (mul_small_int m 5629499534213120 e (-48) 20 5)
    as (He' & _ & Hy & HA & HB & _); try done.
  cbn zeta in *. fold num_20 in *.
  set (y := js_mul _ num_20) in *.
  set (e' := fexp prec emax _) in *.
  set (sr := scaled (S754_finite false m e)) in *.
  assert (HP : 0 < 2 ^ (scale - 53)) by (apply Z.pow_pos_nonneg; lia).
  apply (floor_add_80 y e'); [done | lia |]. split.
  - apply HA; [apply Z.divide_0_r | lia].
  - apply HB; [apply pow2_divide; lia | lia].
Qed.

End Scaled.

(** The two facts the voice interface relies on. *)
Lemma floor_mul_5_range (r : spec_float) :
  unit_interval r = true ->
  exists z, Math_floor (js_mul r num_5) = FlInteger z /\ 0 <= z <= 4.
Proof. apply (floor_mul_5_scaled 1200). lia. Qed.

Lemma floor_confidence_range (r : spec_float) :
  unit_interval r = true ->
  exists z, Math_floor (js_add (js_mul r num_20) num_80) = FlInteger z /\ 80 <= z <= 100.
Proof. apply (floor_confidence_scaled 1200). lia. Qed.

End Binary64Facts.

(* ===================================================================== *)
(** * The voice interface: what the two methods do                        *)
(* ===================================================================== *)

Module VoiceFacts.
Import Binary64 Binary64Facts Voice.
Local Open Scope js_scope.

(** Worlds used as concrete inputs. *)

Definition results_element : Element :=
  {| innerHTML := ""; disabled := false; style_width := "" |}.

Definition page : gmap string Element :=
  {[ "classificationResults" := results_element ]}.

Definition world_with (src : nat -> spec_float) : World :=
  {| console := []; document := page; random_source := src; draws := 0;
     isRecording := false; recognition := None; synthesis := None; timers := [] |}.

(** Always one half. *)
Definition steady_world : World := world_with (fun _ => one_half).

(** One half, then the largest Number below one. *)
Definition edge_world : World :=
  world_with (fun n => match n with 1%nat => below_one | _ => one_half end).

(** 0.1, 0.5, 0.9, 0.5, 0.5, ... *)
Definition varying_world : World :=
  world_with (fun n => match n with
                       | 0%nat => one_tenth
                       | 2%nat => nine_tenths
                       | _ => one_half
                       end).


Lemma edge_in_range : random_in_range edge_world.
Proof. intros [|[|n]]; reflexivity. Qed.

Lemma varying_in_range : random_in_range varying_world.
Proof. intros [|[|[|n]]]; reflexivity. Qed.

(** ** Running [classifyVoiceInput] *)

Lemma classifications_length :
  js_of_Z (Z.of_nat (length classifications)) = num_5.
Proof. reflexivity. Qed.

Lemma pick_in_classifications (r : spec_float) :
  unit_interval r = true ->
  exists label, pick_classification r = Some label /\ label ∈ classifications.
Proof.
  intros Hr. unfold pick_classification. rewrite classifications_length.
  destruct (floor_mul_5_range r Hr) as (z & -> & Hz).
  assert (z = 0 \/ z = 1 \/ z = 2 \/ z = 3 \/ z = 4) as Hcases by lia.
  clear Hz.
  destruct Hcases as [-> | [-> | [-> | [-> | ->]]]]; cbn;
    eexists; (split; [reflexivity |]); unfold classifications;
    repeat (first [apply list_elem_of_here | apply list_elem_of_further]).
Qed.

Lemma confidence_in_range (r : spec_float) :
  unit_interval r = true ->
  exists conf, confidence_percent r = FlInteger conf /\ 80 <= conf <= 100.
Proof. apply floor_confidence_range. Qed.

(** The state after a call, spelled out. *)
Lemma classifyVoiceInput_run (text : string) (w : World) :
  let r := random_source w (draws w) in
  let r' := random_source w (S (draws w)) in
  let label := display (pick_classification r) in
  let entries := [log_entry ["🏷️ Classifying voice input..."];
                  log_entry ["✅ Voice input classified:"; label]] in
  classifyVoiceInput text w
  = (inr tt,
     match document w !! "classificationResults" with
     | Some _ =>
         set_console (console w ++ entries)
           (set_document
              (alter (put_innerHTML
                        (results_html label (number_to_string (confidence_percent r'))))
                     "classificationResults" (document w))
              (set_draws (S (S (draws w))) w))
     | None => set_console (console w ++ entries) (set_draws (S (draws w)) w)
     end).
Proof.
  cbv zeta. unfold classifyVoiceInput, try_catch, bind, console_log, console_emit,
    Math_random, getElementById, update_element, ret, log_entry.
  cbn [console document draws random_source set_console set_draws set_document fst snd].
  destruct (document w !! "classificationResults") as [el|] eqn:Hel;
    cbn [console document draws random_source set_console set_draws set_document];
    unfold set_console, set_document, set_draws; cbn;
    rewrite <- !app_assoc; reflexivity.
Qed.

(** Label and confidence of a call on a page with a results element. *)
Lemma classify_outcome (text : string) (w : World) :
  random_in_range w ->
  exists label conf,
    label ∈ classifications /\ 80 <= conf <= 100
    /\ pick_classification (random_source w (draws w)) = Some label
    /\ confidence_percent (random_source w (S (draws w))) = FlInteger conf
    /\ last (console (after (classifyVoiceInput text) w))
       = Some (log_entry ["✅ Voice input classified:"; label])
    /\ (is_Some (document w !! "classificationResults") ->
        shown (after (classifyVoiceInput text) w)
        = Some (results_html label (decimal conf))).
Proof.
  intros Hrng.
  destruct (pick_in_classifications _ (Hrng (draws w))) as (label & Hpick & Hin).
  destruct (confidence_in_range _ (Hrng (S (draws w)))) as (conf & Hconf & Hc).
  exists label, conf. repeat split; try done; try lia.
  - unfold after. rewrite classifyVoiceInput_run. cbn [snd]. rewrite Hpick.
    destruct (document w !! "classificationResults"); cbn [console set_console];
      by rewrite last_app.
  - intros [el Hel]. unfold after, shown. rewrite classifyVoiceInput_run. cbn [snd].
    rewrite Hel, Hpick, Hconf. cbn [document set_console set_document].
    rewrite lookup_alter_eq, Hel. reflexivity.
Qed.


(** ** Determinism *)

(** C1, as stated, fails: two successive calls with the same text, on a page
    that differs only by what the first call wrote, report different
    labels. *)
Lemma classify_same_text_differs :
  let w1 := after (classifyVoiceInput "status report") varying_world in
  let w2 := after (classifyVoiceInput "status report") w1 in
  random_in_range varying_world
  /\ shown w1 = Some (results_html "Business Meeting" "90")
  /\ shown w2 = Some (results_html "Interview" "90")
  /\ shown w1 <> shown w2.
Proof.
  cbv zeta. split; [apply varying_in_range |].
  assert (H1 : shown (after (classifyVoiceInput "status report") varying_world)
               = Some (results_html "Business Meeting" "90")) by (vm_compute; reflexivity).
  assert (H2 : shown (after (classifyVoiceInput "status report")
                        (after (classifyVoiceInput "status report") varying_world))
               = Some (results_html "Interview" "90")) by (vm_compute; reflexivity).
  split; [exact H1 |]. split; [exact H2 |].
  rewrite H1, H2. vm_compute. discriminate.
Qed.

(** C1, amended: the label and the confidence of a call are fixed by the
    Numbers [Math.random] returns during it.  Two calls that draw the same
    Numbers, on pages that both have the results element, report the same
    label and the same confidence, whatever the two texts and whatever else
    differs between the two states. *)
Theorem classify_determined_by_draws (text1 text2 : string) (w1 w2 : World) :
  random_source w1 (draws w1) = random_source w2 (draws w2) ->
  random_source w1 (S (draws w1)) = random_source w2 (S (draws w2)) ->
  is_Some (document w1 !! "classificationResults") ->
  is_Some (document w2 !! "classificationResults") ->
  shown (after (classifyVoiceInput text1) w1) = shown (after (classifyVoiceInput text2) w2)
  /\ last (console (after (classifyVoiceInput text1) w1))
     = last (console (after (classifyVoiceInput text2) w2)).
Proof.
  intros Hr Hr' [el1 H1] [el2 H2]. unfold after, shown.
  rewrite !classifyVoiceInput_run. cbn [snd]. rewrite H1, H2, Hr, Hr'.
  cbn [document console set_console set_document].
  rewrite !lookup_alter_eq, H1, H2, !last_app. done.
Qed.

Lemma classify_determined_by_draws_witness :
  shown (after (classifyVoiceInput "hello") steady_world)
  = shown (after (classifyVoiceInput "goodbye")
             (after (classifyVoiceInput "hello") steady_world))
  /\ last (console (after (classifyVoiceInput "hello") steady_world))
     = last (console (after (classifyVoiceInput "goodbye")
                        (after (classifyVoiceInput "hello") steady_world))).
Proof.
  apply (classify_determined_by_draws "hello" "goodbye" steady_world
           (after (classifyVoiceInput "hello") steady_world)).
  - reflexivity.
  - reflexivity.
  - exists results_element. reflexivity.
  - eexists. vm_compute. reflexivity.
Defined.

(** ** No unclassified result *)




(** ** Exceptions and effects *)

(** C3, as stated, fails: the call is not pure.  It extends the console,
    consumes two random Numbers and rewrites the results element. *)
Lemma classify_has_effects :
  let w' := after (classifyVoiceInput "hello") steady_world in
  length (console steady_world) = 0%nat /\ length (console w') = 2%nat
  /\ draws steady_world = 0%nat /\ draws w' = 2%nat
  /\ shown steady_world = Some ""
  /\ shown w' = Some (results_html "Casual Conversation" "90")
  /\ w' <> steady_world.
Proof.
  cbv zeta. repeat split; try (vm_compute; reflexivity).
  intros H. apply (f_equal draws) in H. vm_compute in H. discriminate H.
Qed.

(** C3, amended: the call never raises, whatever the text and the state.
    It is not pure.  It appends two messages to the console, the second with
    the label.  When the page has the element [classificationResults] it
    consumes two random Numbers and overwrites the element's [innerHTML] with
    the label and the confidence; when the page has no such element it
    consumes one random Number.  Every other element of the page, the other
    properties of the results element, the random sequence itself, the
    fields of the instance and the pending timers are left as they were. *)
Theorem classify_never_raises (text : string) (w : World) :
  let w' := after (classifyVoiceInput text) w in
  let label := display (pick_classification (random_source w (draws w))) in
  let confidence :=
    number_to_string (confidence_percent (random_source w (S (draws w)))) in
  fst (classifyVoiceInput text w) = inr tt
  /\ console w' = console w ++ [log_entry ["🏷️ Classifying voice input..."];
                                log_entry ["✅ Voice input classified:"; label]]
  /\ (forall el, document w !! "classificationResults" = Some el ->
      draws w' = S (S (draws w))
      /\ document w' !! "classificationResults"
         = Some {| innerHTML := results_html label confidence;
                   disabled := disabled el; style_width := style_width el |})
  /\ (document w !! "classificationResults" = None ->
      draws w' = S (draws w) /\ document w' !! "classificationResults" = None)
  /\ console w `prefix_of` console w'
  /\ (forall id, id <> "classificationResults" -> document w' !! id = document w !! id)
  /\ random_source w' = random_source w
  /\ (draws w <= draws w' <= draws w + 2)%nat
  /\ isRecording w' = isRecording w
  /\ recognition w' = recognition w
  /\ synthesis w' = synthesis w
  /\ timers w' = timers w.
Proof.
  cbv zeta. unfold after. rewrite classifyVoiceInput_run. cbn [fst snd].
  destruct (document w !! "classificationResults") as [el|] eqn:Hel.
  - cbn. split; [done |]. split; [done |].
    split.
    { intros el' [= <-]. split; [done |]. by rewrite lookup_alter_eq, Hel. }
    split; [done |]. split; [by eexists |].
    split; [intros id Hid; by rewrite lookup_alter_ne |].
    repeat split; try done; lia.
  - cbn. split; [done |]. split; [done |]. split; [done |].
    split; [done |]. split; [by eexists |].
    repeat split; try done; lia.
Qed.

(** ** Label and confidence *)

(** C9, as stated, fails: when [Math.random] returns the largest Number
    below one, [r * 20 + 80] rounds to 100 and the page shows 100%. *)
Lemma classify_confidence_reaches_100 :
  random_in_range edge_world
  /\ confidence_percent below_one = FlInteger 100
  /\ shown (after (classifyVoiceInput "hello") edge_world)
     = Some (results_html "Casual Conversation" "100").
Proof.
  split; [apply edge_in_range |]. split; vm_compute; reflexivity.
Qed.

(** C9, amended: for every text and all random Numbers in the range of
    [Math.random], the label is one of the five fixed strings and the
    confidence is an integer between 80 and 100 inclusive; the state after the call,
    label and confidence included, does not depend on the text. *)
Theorem classify_label_and_confidence (text : string) (w : World) :
  random_in_range w ->
  exists label conf,
    label ∈ classifications /\ 80 <= conf <= 100
    /\ last (console (after (classifyVoiceInput text) w))
       = Some (log_entry ["✅ Voice input classified:"; label])
    /\ (is_Some (document w !! "classificationResults") ->
        shown (after (classifyVoiceInput text) w)
        = Some (results_html label (decimal conf)))
    /\ forall text', classifyVoiceInput text' w = classifyVoiceInput text w.
Proof.
  intros Hrng.
  destruct (classify_outcome text w Hrng) as (label & conf & Hin & Hc & _ & _ & Hlog & Hshown).
  exists label, conf.
  split; [exact Hin |]. split; [lia |]. split; [exact Hlog |]. split; [exact Hshown |].
  intros text'. by rewrite !classifyVoiceInput_run.
Qed.

Lemma classify_label_and_confidence_witness :
  exists label conf,
    label ∈ classifications /\ 80 <= conf <= 100
    /\ last (console (after (classifyVoiceInput "hello") edge_world))
       = Some (log_entry ["✅ Voice input classified:"; label])
    /\ (is_Some (document edge_world !! "classificationResults") ->
        shown (after (classifyVoiceInput "hello") edge_world)
        = Some (results_html label (decimal conf)))
    /\ forall text', classifyVoiceInput text' edge_world
                     = classifyVoiceInput "hello" edge_world.
Proof.
  apply (classify_label_and_confidence "hello" edge_world).
  intros [|[|n]]; reflexivity.
Defined.

(** ** Translation *)

(** C10: the translation is the text with "[Translated] " in front, and
    nothing else: it is 13 characters longer and the text can be read back
    from position 13.  The call logs it and never raises. *)
Theorem translate_prefixes_text (text : string) (w : World) :
  let translated := "[Translated] " +:+ text in
  translateVoiceInput text w
  = (inr tt,
     set_console (console w ++ [log_entry ["🌍 Translating voice input..."];
                                log_entry ["✅ Voice input translated:"; translated]]) w)
  /\ String.length translated = (13 + String.length text)%nat
  /\ String.substring 13 (String.length text) translated = text.
Proof.
  cbv zeta. split; [| split].
  - unfold translateVoiceInput, try_catch, bind, console_log, console_emit, log_entry.
    cbn. unfold set_console. cbn. by rewrite <- app_assoc.
  - reflexivity.
  - change (String.substring 0 (String.length text) text = text).
    induction text as [|c t IH]; [done |]. cbn. by rewrite IH.
Qed.

End VoiceFacts.

(* ===================================================================== *)
(** * The Agent Router: capability and escalation                         *)
(* ===================================================================== *)

Module RouterFacts.
Import Router.
Local Open Scope Q_scope.

#[global] Instance ranks_before_total : Total ranks_before.
Proof.
  intros x y. unfold ranks_before.
  destruct (Qcompare_spec (asg_confidence x) (asg_confidence y)) as [Heq | Hlt | Hgt].
  - destruct (String.leb_total (asg_agent x) (asg_agent y)) as [Hs | Hs].
    + left. right. done.
    + right. right. split; [by symmetry | done].
  - right. by left.
  - left. by left.
Qed.

Lemma ranks_before_score (x y : Assignment) :
  ranks_before x y -> asg_confidence y <= asg_confidence x.
Proof.
  intros [Hlt | [Heq _]].
  - by apply Qlt_le_weak.
  - rewrite Heq. apply Qle_refl.
Qed.

Lemma sorted_head_max (l : list Assignment) (x y : Assignment) :
  Sorted ranks_before (x :: l) -> y ∈ l -> asg_confidence y <= asg_confidence x.
Proof.
  revert x. induction l as [|z l IH]; intros x Hs Hy.
  - by apply elem_of_nil in Hy.
  - apply Sorted_inv in Hs as [Hs Hhd]. apply HdRel_inv in Hhd.
    apply ranks_before_score in Hhd.
    apply elem_of_cons in Hy as [-> | Hy]; [done |].
    eapply Qle_trans; [apply (IH z Hs Hy) | done].
Qed.

Lemma elem_of_candidates (conf : Q) (c : Category) (reg : gmap string Agent)
    (x : Assignment) :
  x ∈ candidates conf c reg ->
  exists a, reg !! asg_agent x = Some a /\ capable c a = true
            /\ asg_category x = cat_id c
            /\ asg_confidence x = candidate_score conf c a.
Proof.
  unfold candidates. rewrite merge_sort_Permutation.
  intros ([id a] & Hin & Hf)%list_elem_of_omap.
  apply elem_of_map_to_list in Hin.
  destruct (capable c a) eqn:Hcap; [| discriminate Hf].
  injection Hf as <-. exists a. done.
Qed.

Lemma elem_of_qualifying (conf : Q) (c : Category) (reg : gmap string Agent)
    (x : Assignment) :
  x ∈ qualifying conf c reg ->
  x ∈ candidates conf c reg /\ cat_threshold c < asg_confidence x.
Proof.
  unfold qualifying. intros Hin. apply list_elem_of_In, filter_In in Hin as [Hin Hab].
  split; [by apply list_elem_of_In |].
  unfold above_threshold in Hab. by destruct (Qlt_le_dec _ _).
Qed.

Lemma route_with_capable (fanout : nat) (cr : ClassificationResult)
    (reg : gmap string Agent) (x : Assignment) :
  x ∈ rd_assignments (route_with fanout cr reg) ->
  exists c a,
    c ∈ cr_primary cr :: cr_secondary cr
    /\ asg_category x = cat_id c
    /\ reg !! asg_agent x = Some a
    /\ cat_required c ⊆ agent_caps a
    /\ cat_threshold c < asg_confidence x.
Proof.
  cbn [route_with rd_assignments]. intros Hin.
  apply elem_of_take in Hin as (i & Hi & _). apply list_elem_of_lookup_2 in Hi.
  apply list_elem_of_In, in_concat in Hi as (l & Hl & Hx).
  apply in_map_iff in Hl as (c & <- & Hc).
  apply list_elem_of_In, elem_of_qualifying in Hx as [Hx Hthr].
  apply elem_of_candidates in Hx as (a & Ha & Hcap & Hcat & _).
  exists c, a. repeat split; try done.
  - by apply list_elem_of_In.
  - unfold capable in Hcap. by apply bool_decide_eq_true in Hcap.
Qed.

(** Concrete inputs: two categories and three agents. *)

Definition search_category : Category :=
  {| cat_id := "product_search"; cat_label := "Product search";
     cat_phrases := [("price"%string, 2); ("suppliers"%string, 1)];
     cat_required := {[ "search"%string ]}; cat_threshold := 1 # 2 |}.

Definition translation_category : Category :=
  {| cat_id := "translation"; cat_label := "Translation";
     cat_phrases := [("translate"%string, 3)];
     cat_required := {[ "language"%string ]}; cat_threshold := 1 # 2 |}.

Definition agent_with (caps : gset string) (rate : Q) : Agent :=
  {| agent_caps := caps; agent_weights := ∅; success_rate := rate;
     mean_satisfaction := 1; mean_latency := 1 |}.

Definition registry : gmap string Agent :=
  <[ "finder" := agent_with {[ "search"%string; "catalog"%string ]} (9 # 10) ]>
  (<[ "linguist" := agent_with {[ "language"%string ]} (9 # 10) ]>
   (<[ "sluggard" := agent_with {[ "search"%string ]} (1 # 10) ]> ∅)).

Definition request (confidence : Q) : ClassificationResult :=
  {| cr_request := "req-1"; cr_scores := [("product_search"%string, 2)];
     cr_primary := search_category; cr_confidence := confidence;
     cr_secondary := [translation_category] |}.

(** C4: every agent of the decision returned by [route] is a registered
    agent whose capability tags include all those required by the category
    it was assigned for. *)
Theorem route_agents_capable (cr : ClassificationResult) (reg : gmap string Agent)
    (x : Assignment) :
  x ∈ rd_assignments (route cr reg) ->
  exists c a,
    c ∈ cr_primary cr :: cr_secondary cr
    /\ asg_category x = cat_id c
    /\ reg !! asg_agent x = Some a
    /\ cat_required c ⊆ agent_caps a.
Proof.
  intros Hin. destruct (route_with_capable _ _ _ _ Hin) as (c & a & H1 & H2 & H3 & H4 & _).
  by exists c, a.
Qed.

Lemma route_agents_capable_witness :
  exists c a,
    c ∈ [search_category; translation_category]
    /\ "product_search" = cat_id c
    /\ registry !! "finder" = Some a
    /\ cat_required c ⊆ agent_caps a.
Proof.
  apply (route_agents_capable (request (8 # 10)) registry
           {| asg_agent := "finder"; asg_confidence := (8 # 10) * 1 * (9 # 10);
              asg_category := "product_search" |}).
  vm_compute. apply list_elem_of_here.
Defined.

Lemma filter_none {A : Type} (f : A -> bool) (l : list A) :
  (forall x, x ∈ l -> f x = false) -> List.filter f l = [].
Proof.
  induction l as [|x l IH]; intros H; [done |]. cbn.
  rewrite (H x) by apply list_elem_of_here.
  apply IH. intros y Hy. apply H. by apply list_elem_of_further.
Qed.

(** C5: when the best candidate of the primary category scores below the
    category's threshold and no secondary category has a qualifying
    candidate, [route] returns a decision, not an error, with the
    escalation flag set and no agent at all. *)
Theorem route_escalates (cr : ClassificationResult) (reg : gmap string Agent) (s : Q) :
  top_score (cr_confidence cr) (cr_primary cr) reg = Some s ->
  s < cat_threshold (cr_primary cr) ->
  (forall c, c ∈ cr_secondary cr -> qualifying (cr_confidence cr) c reg = []) ->
  route cr reg
  = {| rd_request := cr_request cr; rd_assignments := [];
       rd_confidence := 0; rd_escalated := true |}.
Proof.
  intros Htop Hlow Hsec.
  assert (Hprim : qualifying (cr_confidence cr) (cr_primary cr) reg = []).
  { unfold qualifying. apply filter_none. intros x Hx.
    unfold top_score in Htop.
    pose proof (Sorted_merge_sort ranks_before
                  (omap (fun '(id, a) =>
                           if capable (cr_primary cr) a
                           then Some {| asg_agent := id;
                                        asg_confidence :=
                                          candidate_score (cr_confidence cr) (cr_primary cr) a;
                                        asg_category := cat_id (cr_primary cr) |}
                           else None) (map_to_list reg))) as Hsorted.
    fold (candidates (cr_confidence cr) (cr_primary cr) reg) in Hsorted.
    destruct (candidates (cr_confidence cr) (cr_primary cr) reg) as [|top rest] eqn:Hc;
      [by apply elem_of_nil in Hx |].
    cbn in Htop. injection Htop as <-.
    assert (Hle : asg_confidence x <= asg_confidence top).
    { apply elem_of_cons in Hx as [-> | Hx]; [apply Qle_refl |].
      by eapply sorted_head_max. }
    unfold above_threshold. destruct (Qlt_le_dec _ _) as [Hlt | _]; [| done].
    exfalso. apply (Qlt_irrefl (asg_confidence x)).
    eapply Qle_lt_trans; [exact Hle |]. by eapply Qlt_trans. }
  assert (Hall : concat (map (fun c => qualifying (cr_confidence cr) c reg)
                             (cr_primary cr :: cr_secondary cr)) = []).
  { cbn [map concat]. rewrite Hprim. cbn [app].
    induction (cr_secondary cr) as [|c l IH]; [done |].
    cbn [map concat]. rewrite (Hsec c) by apply list_elem_of_here. cbn [app].
    apply IH. intros c' Hc'. apply Hsec. by apply list_elem_of_further. }
  unfold route, route_with. rewrite Hall. by rewrite take_nil.
Qed.

Lemma route_escalates_witness :
  route (request (1 # 2)) registry
  = {| rd_request := "req-1"; rd_assignments := [];
       rd_confidence := 0; rd_escalated := true |}.
Proof.
  apply (route_escalates (request (1 # 2)) registry ((1 # 2) * 1 * (9 # 10))).
  - vm_compute. reflexivity.
  - reflexivity.
  - intros c Hc. apply elem_of_cons in Hc as [-> | Hc].
    + vm_compute. reflexivity.
    + by apply elem_of_nil in Hc.
Defined.

End RouterFacts.

(* ===================================================================== *)
(** * The Adaptive Loop: bounded steps and the empty window               *)
(* ===================================================================== *)

Module SairFacts.
Import Router Sair.
Local Open Scope Q_scope.

Definition key_of (r : RoutingAdjustment) : string * string :=
  (ra_category r, ra_agent r).

(** *** Act proposes bounded steps, one per pair *)

Lemma clamp_bounds (limit x : Q) :
  0 <= limit -> Qabs (clamp (- limit) limit x) <= limit.
Proof.
  intros Hl. apply Qabs_Qle_condition. unfold clamp. split.
  - apply Q.le_max_l.
  - apply Q.max_lub.
    + lra.
    + apply Q.le_min_l.
Qed.

Lemma propose_bounded (cfg : Config) (st : LoopState) (snap : Snapshot) (base : Q)
    (key : string * string) (mean d : Q) :
  0 <= step_bound cfg ->
  propose cfg st snap base key mean = Some d ->
  Qabs d <= step_bound cfg * Qabs (weight_of (agents snap) (snd key) (fst key)).
Proof.
  intros Hb. unfold propose.
  assert (Hl : 0 <= step_bound cfg * Qabs (weight_of (agents snap) (snd key) (fst key))).
  { apply Qmult_le_0_compat; [done | apply Qabs_nonneg]. }
  destruct (Qlt_le_dec mean (base - tolerance cfg));
    [| destruct (Qlt_le_dec (base + tolerance cfg) mean)];
    intros [= <-] || discriminate; by apply clamp_bounds.
Qed.

Lemma routing_adjustments_spec (cfg : Config) (st : LoopState) (snap : Snapshot)
    (w : list OutcomeRecord) (r : RoutingAdjustment) :
  r ∈ routing_adjustments cfg st snap w ->
  exists base mean,
    propose cfg st snap base (key_of r) mean = Some (ra_delta r).
Proof.
  unfold routing_adjustments. destruct (baseline w) as [base|]; [| by intros ?%elem_of_nil].
  intros ([key mean] & _ & Hf)%list_elem_of_omap.
  destruct (propose cfg st snap base key mean) as [d|] eqn:Hp; [| discriminate Hf].
  injection Hf as <-. exists base, mean. unfold key_of. cbn.
  by destruct key.
Qed.

Lemma omap_keys_NoDup {V : Type} (f : (string * string) * V -> option RoutingAdjustment)
    (l : list ((string * string) * V)) :
  (forall k v r, f (k, v) = Some r -> key_of r = k) ->
  NoDup (l.*1) -> NoDup (key_of <$> omap f l).
Proof.
  intros Hf. induction l as [|[k v] l IH]; intros Hnd; cbn; [constructor |].
  apply NoDup_cons in Hnd as [Hk Hnd].
  destruct (f (k, v)) as [r|] eqn:Hr; [| by apply IH].
  cbn. apply NoDup_cons. split; [| by apply IH].
  rewrite (Hf _ _ _ Hr). intros Hin. apply Hk.
  apply list_elem_of_fmap in Hin as (r' & Hk' & Hin).
  apply list_elem_of_omap in Hin as ([k' v'] & Hin & Hr').
  apply Hf in Hr'. apply list_elem_of_fmap. exists (k', v'). split; [| done].
  cbn. congruence.
Qed.

Lemma routing_adjustments_NoDup (cfg : Config) (st : LoopState) (snap : Snapshot)
    (w : list OutcomeRecord) :
  NoDup (key_of <$> routing_adjustments cfg st snap w).
Proof.
  unfold routing_adjustments. destruct (baseline w) as [base|]; [| constructor].
  apply omap_keys_NoDup; [| apply NoDup_fst_map_to_list].
  intros k v r Hf. destruct (propose cfg st snap base k v); [| discriminate Hf].
  injection Hf as <-. by destruct k.
Qed.

(** *** Applying the routing adjustments *)

Definition apply_one (m : gmap string Agent) (r : RoutingAdjustment) : gmap string Agent :=
  alter (fun a => put_weight (ra_category r)
                    (routing_weight a (ra_category r) + ra_delta r) a)
        (ra_agent r) m.

Lemma apply_routing_cons (r : RoutingAdjustment) (l : list RoutingAdjustment)
    (m : gmap string Agent) :
  apply_routing (r :: l) m = apply_routing l (apply_one m r).
Proof. reflexivity. Qed.

Lemma apply_one_other (m : gmap string Agent) (r : RoutingAdjustment)
    (agent category : string) :
  key_of r <> (category, agent) ->
  weight_of (apply_one m r) agent category = weight_of m agent category.
Proof.
  intros Hne. unfold weight_of, apply_one.
  destruct (decide (ra_agent r = agent)) as [Ha | Ha].
  - rewrite Ha, lookup_alter_eq. destruct (m !! agent) as [a|]; [| done].
    cbn. unfold routing_weight. cbn. rewrite lookup_insert_ne; [done |].
    intros Hc. apply Hne. unfold key_of. by rewrite Hc, Ha.
  - by rewrite lookup_alter_ne.
Qed.

Lemma apply_one_same (m : gmap string Agent) (r : RoutingAdjustment) :
  weight_of (apply_one m r) (ra_agent r) (ra_category r)
  = match m !! ra_agent r with
    | Some _ => weight_of m (ra_agent r) (ra_category r) + ra_delta r
    | None => weight_of m (ra_agent r) (ra_category r)
    end.
Proof.
  unfold weight_of, apply_one. rewrite lookup_alter_eq.
  destruct (m !! ra_agent r) as [a|]; [| done].
  cbn. unfold routing_weight at 1. cbn. by rewrite lookup_insert_eq.
Qed.

Lemma apply_routing_untouched (l : list RoutingAdjustment) (m : gmap string Agent)
    (agent category : string) :
  (category, agent) ∉ key_of <$> l ->
  weight_of (apply_routing l m) agent category = weight_of m agent category.
Proof.
  revert m. induction l as [|r l IH]; intros m Hnot; [done |].
  rewrite apply_routing_cons. rewrite fmap_cons in Hnot.
  apply not_elem_of_cons in Hnot as [Hne Hnot].
  rewrite IH by done. apply apply_one_other. congruence.
Qed.

(** With one adjustment per pair, a weight is left alone or moved once. *)
Lemma apply_routing_weight (l : list RoutingAdjustment) (m : gmap string Agent)
    (agent category : string) :
  NoDup (key_of <$> l) ->
  weight_of (apply_routing l m) agent category = weight_of m agent category
  \/ exists r, r ∈ l /\ key_of r = (category, agent)
       /\ weight_of (apply_routing l m) agent category
          = weight_of m agent category + ra_delta r.
Proof.
  revert m. induction l as [|r l IH]; intros m Hnd; [by left |].
  rewrite fmap_cons in Hnd. apply NoDup_cons in Hnd as [Hfresh Hnd].
  rewrite apply_routing_cons.
  destruct (decide (key_of r = (category, agent))) as [Hk | Hk].
  - rewrite Hk in Hfresh. rewrite apply_routing_untouched by done.
    injection Hk as <- <-. rewrite apply_one_same.
    destruct (m !! ra_agent r); [right | by left].
    exists r. split; [apply list_elem_of_here | done].
  - destruct (IH (apply_one m r) Hnd) as [Heq | (r' & Hin & Hk' & Heq)];
      rewrite apply_one_other in Heq by done.
    + by left.
    + right. exists r'. split; [by apply list_elem_of_further | done].
Qed.

(** Concrete inputs. *)

Definition settings : Config :=
  {| window_size := 100; step_bound := 1 # 10; tolerance := 1 # 20; damping := 1 # 2;
     low_confidence := 1 # 2; phrase_decay := 1 # 10;
     target_escalation := 1 # 10; threshold_step := 1 # 100 |}.

Definition fresh_state : LoopState :=
  {| gains := ∅; last_satisfaction := None; last_adjusted := [] |}.

Definition category_x : Category :=
  {| cat_id := "X"; cat_label := "X"; cat_phrases := [("price"%string, 2)];
     cat_required := ∅; cat_threshold := 1 # 2 |}.

Definition plain_agent : Agent :=
  {| agent_caps := ∅; agent_weights := ∅; success_rate := 9 # 10;
     mean_satisfaction := 1; mean_latency := 1 |}.

Definition snapshot_0 : Snapshot :=
  {| version := 0; categories := {[ "X" := category_x ]};
     agents := <[ "A" := plain_agent ]> {[ "B" := plain_agent ]} |}.

Definition outcome (agent : string) (satisfaction : Q) : OutcomeRecord :=
  {| out_request := "req";
     out_classification :=
       {| cr_request := "req"; cr_scores := []; cr_primary := category_x;
          cr_confidence := 8 # 10; cr_secondary := [] |};
     out_decision :=
       {| rd_request := "req";
          rd_assignments := [{| asg_agent := agent; asg_confidence := 7 # 10;
                                asg_category := "X" |}];
          rd_confidence := 7 # 10; rd_escalated := false |};
     out_responses := [];
     out_satisfaction := Some satisfaction;
     out_correct := None |}.

(** C6: one cycle moves a routing weight by at most the configured bound,
    taken relative to the weight before the cycle, for every pair of a
    category and an agent and every outcome log. *)
Theorem cycle_weight_change_bounded (cfg : Config) (st : LoopState) (snap : Snapshot)
    (log : list OutcomeRecord) (agent category : string) :
  0 <= step_bound cfg ->
  let before := weight_of (agents snap) agent category in
  let after := weight_of (agents (snd (adaptive_cycle cfg st snap log))) agent category in
  Qabs (after - before) <= step_bound cfg * Qabs before.
Proof.
  intros Hb. cbv zeta. unfold adaptive_cycle. cbn [snd apply_update agents].
  cbn [learning_update lu_routing].
  set (w := window cfg log).
  destruct (apply_routing_weight (routing_adjustments cfg st snap w) (agents snap)
              agent category (routing_adjustments_NoDup cfg st snap w))
    as [-> | (r & Hin & Hk & ->)].
  - assert (E : weight_of (agents snap) agent category
                 - weight_of (agents snap) agent category == 0) by ring.
    rewrite E. cbn. apply Qmult_le_0_compat; [done | apply Qabs_nonneg].
  - assert (E : weight_of (agents snap) agent category + ra_delta r
                 - weight_of (agents snap) agent category == ra_delta r) by ring.
    rewrite E.
    destruct (routing_adjustments_spec _ _ _ _ _ Hin) as (base & mean & Hp).
    apply (propose_bounded _ _ _ _ _ _ _ Hb) in Hp. by rewrite Hk in Hp.
Qed.

Lemma cycle_weight_change_bounded_witness :
  Qabs (weight_of (agents (snd (adaptive_cycle settings fresh_state snapshot_0
                                  [outcome "A" (9 # 10); outcome "B" (3 # 10)]))) "A" "X"
        - weight_of (agents snapshot_0) "A" "X")
  <= step_bound settings * Qabs (weight_of (agents snapshot_0) "A" "X").
Proof.
  apply (cycle_weight_change_bounded settings fresh_state snapshot_0
           [outcome "A" (9 # 10); outcome "B" (3 # 10)] "A" "X").
  vm_compute. discriminate.
Defined.

(** C7: on an empty outcome window the cycle completes with the empty
    LearningUpdate, and committing it leaves the Category Model and the
    Agent registry as they were: every phrase weight, routing weight and
    threshold is unchanged. *)
Theorem empty_window_is_noop (cfg : Config) (st : LoopState) (snap : Snapshot)
    (log : list OutcomeRecord) :
  window cfg log = [] ->
  learning_update cfg st snap log = {| lu_phrases := []; lu_routing := [] |}
  /\ categories (snd (adaptive_cycle cfg st snap log)) = categories snap
  /\ agents (snd (adaptive_cycle cfg st snap log)) = agents snap
  /\ gains (fst (adaptive_cycle cfg st snap log)) = gains st.
Proof.
  intros Hw.
  assert (Hu : learning_update cfg st snap log = {| lu_phrases := []; lu_routing := [] |}).
  { unfold learning_update. rewrite Hw. reflexivity. }
  split; [exact Hu |]. unfold adaptive_cycle. rewrite Hu, Hw.
  cbn [fst snd apply_update categories agents lu_phrases lu_routing
       apply_phrases apply_thresholds apply_routing foldl].
  split; [reflexivity |]. split; [reflexivity |].
  unfold interpret, helped. cbn. by destruct (last_satisfaction st).
Qed.

Lemma empty_window_is_noop_witness :
  learning_update settings fresh_state snapshot_0 []
  = {| lu_phrases := []; lu_routing := [] |}
  /\ categories (snd (adaptive_cycle settings fresh_state snapshot_0 []))
     = categories snapshot_0
  /\ agents (snd (adaptive_cycle settings fresh_state snapshot_0 [])) = agents snapshot_0
  /\ gains (fst (adaptive_cycle settings fresh_state snapshot_0 [])) = gains fresh_state.
Proof.
  apply (empty_window_is_noop settings fresh_state snapshot_0 []). reflexivity.
Defined.

End SairFacts.

(* ===================================================================== *)
(** * The voice interface: recording, speech results, timers, languages   *)
(* ===================================================================== *)

Module RecordingFacts.
Import Binary64 Voice VoiceFacts.
Local Open Scope js_scope.

(** ** Auxiliary facts about the state *)

Lemma set_document_same (w : World) : set_document (document w) w = w.
Proof. by destruct w. Qed.

Lemma alter_absent {A : Type} (f : A -> A) (m : gmap string A) (k : string) :
  m !! k = None -> alter f k m = m.
Proof.
  intros H. apply map_eq. intros i. rewrite lookup_alter.
  case_decide as Hi; [| done]. subst. by rewrite H.
Qed.

(** [if (el) el.p = v], for [el] looked up under [id] at any earlier point
    where the page had the same elements. *)
Lemma when_present_alter (el : option Element) (id : string)
    (f : Element -> Element) (w : World) :
  (el = None <-> document w !! id = None) ->
  when_present el (update_element id f) w
  = (inr tt, set_document (alter f id (document w)) w).
Proof.
  intros H. unfold when_present, update_element, ret. destruct el as [e|].
  - done.
  - rewrite alter_absent by (by apply H). by rewrite set_document_same.
Qed.

Lemma updateVoiceProgress_run (p : Z) (w : World) :
  updateVoiceProgress p w
  = (inr tt,
     set_document (alter (put_style_width (decimal p +:+ "%")) "voiceProgress"
                         (document w)) w).
Proof.
  unfold updateVoiceProgress, try_catch, bind, getElementById, update_element, ret.
  destruct (document w !! "voiceProgress") eqn:H; [done |].
  by rewrite alter_absent, set_document_same.
Qed.

(** The page after a successful start, and after a successful stop. *)
Definition page_started (d : gmap string Element) : gmap string Element :=
  alter (put_style_width "50%") "voiceProgress"
    (alter (put_disabled false) "stopVoiceBtn"
       (alter (put_disabled true) "startVoiceBtn" d)).

Definition page_stopped (d : gmap string Element) : gmap string Element :=
  alter (put_style_width "0%") "voiceProgress"
    (alter (put_disabled true) "stopVoiceBtn"
       (alter (put_disabled false) "startVoiceBtn" d)).

Lemma lookup_alter_None {A : Type} (f : A -> A) (m : gmap string A) (i j : string) :
  alter f i m !! j = None <-> m !! j = None.
Proof.
  rewrite lookup_alter. case_decide; [| done]. subst.
  destruct (m !! j); cbn; split; intros; done.
Qed.

Lemma startVoiceInput_success (w : World) (r : Recognition) :
  isRecording w = false -> recognition w = Some r -> active r = false ->
  startVoiceInput w
  = (inr tt,
     set_console (console w ++ [log_entry ["🎤 Starting voice input..."];
                                log_entry ["✅ Voice input started"]])
       (set_document (page_started (document w))
          (set_isRecording true (set_recognition (Some (put_active true r)) w)))).
Proof.
  intros Hrec Hr Ha.
  unfold startVoiceInput, try_catch, bind at 1. unfold read_isRecording at 1.
  rewrite Hrec. unfold bind at 1. unfold console_log at 1, console_emit at 1.
  unfold bind at 1. unfold read_recognition at 1. cbn [recognition set_console].
  rewrite Hr. unfold bind at 1. unfold recognition_start. rewrite Ha.
  unfold bind at 1. unfold assign_isRecording at 1.
  unfold bind at 1. unfold getElementById at 1.
  unfold bind at 1. unfold getElementById at 1.
  unfold bind at 1. rewrite when_present_alter by done.
  unfold bind at 1. rewrite when_present_alter
    by (cbn [document set_document]; by rewrite lookup_alter_None).
  unfold bind at 1. rewrite updateVoiceProgress_run.
  unfold console_log, console_emit, log_entry, page_started.
  destruct w. cbn. unfold set_console. cbn. by rewrite <- app_assoc.
Qed.

Lemma startVoiceInput_already (w : World) :
  isRecording w = true ->
  startVoiceInput w
  = (inr tt, set_console (console w ++ [log_entry ["⚠️ Already recording"]]) w).
Proof.
  intros Hrec. unfold startVoiceInput, try_catch, bind, read_isRecording.
  by rewrite Hrec.
Qed.

Lemma startVoiceInput_unsupported (w : World) :
  isRecording w = false -> recognition w = None ->
  startVoiceInput w
  = (inr tt,
     set_console (console w ++ [log_entry ["🎤 Starting voice input..."];
                                {| level := LvlError;
                                   args := ["❌ Speech recognition not available"] |}]) w).
Proof.
  intros Hrec Hr. unfold startVoiceInput, try_catch, bind, read_isRecording,
    read_recognition, console_log, console_error, console_emit.
  rewrite Hrec. cbn [recognition set_console]. rewrite Hr.
  destruct w. unfold set_console, log_entry. cbn. by rewrite <- app_assoc.
Qed.

Lemma startVoiceInput_busy (w : World) (r : Recognition) :
  isRecording w = false -> recognition w = Some r -> active r = true ->
  startVoiceInput w
  = (inr tt,
     set_console
       (console w ++ [log_entry ["🎤 Starting voice input..."];
                      {| level := LvlError;
                         args := ["❌ Failed to start voice input:";
                                  "InvalidStateError: recognition has already started"] |}])
       w).
Proof.
  intros Hrec Hr Ha. unfold startVoiceInput, try_catch, bind, read_isRecording,
    read_recognition, console_log, console_error, console_emit, recognition_start.
  rewrite Hrec. cbn [recognition set_console]. rewrite Hr, Ha.
  destruct w. unfold set_console, log_entry. cbn. by rewrite <- app_assoc.
Qed.

Lemma stopVoiceInput_success (w : World) (r : Recognition) :
  isRecording w = true -> recognition w = Some r ->
  stopVoiceInput w
  = (inr tt,
     set_console (console w ++ [log_entry ["⏹️ Stopping voice input..."];
                                log_entry ["✅ Voice input stopped"]])
       (set_document (page_stopped (document w))
          (set_isRecording false (set_recognition (Some (put_active false r)) w)))).
Proof.
  intros Hrec Hr.
  unfold stopVoiceInput, try_catch, bind at 1. unfold read_isRecording at 1.
  rewrite Hrec. cbn [negb]. unfold bind at 1. unfold console_log at 1, console_emit at 1.
  unfold bind at 1. unfold read_recognition at 1. cbn [recognition set_console].
  rewrite Hr. unfold bind at 1. unfold recognition_stop.
  unfold bind at 1. unfold assign_isRecording at 1.
  unfold bind at 1. unfold getElementById at 1.
  unfold bind at 1. unfold getElementById at 1.
  unfold bind at 1. rewrite when_present_alter by done.
  unfold bind at 1. rewrite when_present_alter
    by (cbn [document set_document]; by rewrite lookup_alter_None).
  unfold bind at 1. rewrite updateVoiceProgress_run.
  unfold console_log, console_emit, log_entry, page_stopped.
  destruct w. cbn. unfold set_console. cbn. by rewrite <- app_assoc.
Qed.

Lemma stopVoiceInput_idle (w : World) :
  isRecording w = false ->
  stopVoiceInput w
  = (inr tt, set_console (console w ++ [log_entry ["⚠️ Not recording"]]) w).
Proof.
  intros Hrec. unfold stopVoiceInput, try_catch, bind, read_isRecording.
  by rewrite Hrec.
Qed.

Lemma stopVoiceInput_unsupported (w : World) :
  isRecording w = true -> recognition w = None ->
  stopVoiceInput w
  = (inr tt, set_console (console w ++ [log_entry ["⏹️ Stopping voice input..."]]) w).
Proof.
  intros Hrec Hr. unfold stopVoiceInput, try_catch, bind, read_isRecording,
    read_recognition, console_log, console_emit.
  rewrite Hrec. cbn [negb recognition set_console]. by rewrite Hr.
Qed.


(** ** Concrete states *)

Definition button (is_disabled : bool) : Element :=
  {| innerHTML := ""; disabled := is_disabled; style_width := "" |}.

Definition studio_page : gmap string Element :=
  <[ "startVoiceBtn" := button false ]>
  (<[ "stopVoiceBtn" := button true ]>
   (<[ "voiceProgress" := {| innerHTML := ""; disabled := false; style_width := "0%" |} ]>
    page)).

Definition recognizer (is_active : bool) : Recognition :=
  {| continuous := true; interimResults := true; lang := "en-US"; active := is_active |}.

(** A page with all its controls, recognition and synthesis available,
    nothing recorded yet. *)
Definition idle_world : World :=
  {| console := []; document := studio_page; random_source := fun _ => one_half;
     draws := 0; isRecording := false; recognition := Some (recognizer false);
     synthesis := Some []; timers := [] |}.

(** The recognition is still running although the instance believes it is
    not recording. *)
Definition busy_world : World := set_recognition (Some (recognizer true)) idle_world.

(** ** Starting and stopping *)

(** X1: [startVoiceInput] never raises, and afterwards the instance is recording
    exactly when it was recording before or a recognition that was not yet
    running could be started. *)
Theorem start_sets_flag_iff (w : World) :
  fst (startVoiceInput w) = inr tt
  /\ (isRecording (after startVoiceInput w) = true
      <-> isRecording w = true
          \/ exists r, recognition w = Some r /\ active r = false).
Proof.
  unfold after.
  destruct (isRecording w) eqn:Hrec.
  - rewrite startVoiceInput_already by done. cbn. rewrite Hrec. split; [done |]. tauto.
  - destruct (recognition w) as [r|] eqn:Hr.
    + destruct (active r) eqn:Ha.
      * rewrite (startVoiceInput_busy w r) by done. cbn. rewrite Hrec.
        split; [done |]. split; [done |].
        intros [? | (r' & [= <-] & Ha')]; [done | congruence].
      * rewrite (startVoiceInput_success w r) by done. cbn.
        split; [done |]. split; [| done]. intros _. right. by exists r.
    + rewrite startVoiceInput_unsupported by done. cbn. rewrite Hrec.
      split; [done |]. split; [done |]. intros [? | (r' & ? & _)]; done.
Qed.

(** X2: A successful start: the instance is recording, the recognition runs,
    the start button is disabled, the stop button is enabled, the progress
    bar is at 50%, and no other element of the page is touched. *)
Theorem start_updates_page (w : World) (r : Recognition) :
  isRecording w = false -> recognition w = Some r -> active r = false ->
  let w' := after startVoiceInput w in
  isRecording w' = true
  /\ recognition w' = Some (put_active true r)
  /\ document w' !! "startVoiceBtn" = put_disabled true <$> document w !! "startVoiceBtn"
  /\ document w' !! "stopVoiceBtn" = put_disabled false <$> document w !! "stopVoiceBtn"
  /\ document w' !! "voiceProgress" = put_style_width "50%" <$> document w !! "voiceProgress"
  /\ (forall id, id <> "startVoiceBtn" -> id <> "stopVoiceBtn" -> id <> "voiceProgress" ->
      document w' !! id = document w !! id).
Proof.
  intros Hrec Hr Ha. cbv zeta. unfold after.
  rewrite (startVoiceInput_success w r) by done. cbn. unfold page_started.
  split; [done |]. split; [done |].
  split; [by rewrite lookup_alter_ne, lookup_alter_ne, lookup_alter_eq |].
  split; [by rewrite lookup_alter_ne, lookup_alter_eq, lookup_alter_ne |].
  split; [by rewrite lookup_alter_eq, lookup_alter_ne, lookup_alter_ne |].
  intros id H1 H2 H3. by rewrite !lookup_alter_ne.
Qed.

Lemma start_updates_page_witness :
  let w' := after startVoiceInput idle_world in
  isRecording w' = true
  /\ recognition w' = Some (put_active true (recognizer false))
  /\ document w' !! "startVoiceBtn"
     = put_disabled true <$> document idle_world !! "startVoiceBtn"
  /\ document w' !! "stopVoiceBtn"
     = put_disabled false <$> document idle_world !! "stopVoiceBtn"
  /\ document w' !! "voiceProgress"
     = put_style_width "50%" <$> document idle_world !! "voiceProgress"
  /\ (forall id, id <> "startVoiceBtn" -> id <> "stopVoiceBtn" -> id <> "voiceProgress" ->
      document w' !! id = document idle_world !! id).
Proof.
  apply (start_updates_page idle_world (recognizer false)); reflexivity.
Defined.

(** X3: When [recognition.start()] throws because the recognition is already
    running, the exception is caught: the instance stays not recording, the
    page and the recognition are left alone, and the failure is logged as an
    error. *)
Theorem failed_start_leaves_idle (w : World) (r : Recognition) :
  isRecording w = false -> recognition w = Some r -> active r = true ->
  let w' := after startVoiceInput w in
  fst (startVoiceInput w) = inr tt
  /\ isRecording w' = false
  /\ recognition w' = Some r
  /\ document w' = document w
  /\ last (console w')
     = Some {| level := LvlError;
               args := ["❌ Failed to start voice input:";
                        "InvalidStateError: recognition has already started"] |}.
Proof.
  intros Hrec Hr Ha. cbv zeta. unfold after.
  rewrite (startVoiceInput_busy w r) by done. cbn.
  repeat split; try done.
  by rewrite (last_app (console w) [_; _]).
Qed.

Lemma failed_start_leaves_idle_witness :
  let w' := after startVoiceInput busy_world in
  fst (startVoiceInput busy_world) = inr tt
  /\ isRecording w' = false
  /\ recognition w' = Some (recognizer true)
  /\ document w' = document busy_world
  /\ last (console w')
     = Some {| level := LvlError;
               args := ["❌ Failed to start voice input:";
                        "InvalidStateError: recognition has already started"] |}.
Proof.
  apply (failed_start_leaves_idle busy_world (recognizer true)); reflexivity.
Defined.

(** X4: Starting while already recording, and stopping while not recording,
    only write a warning to the console: the recognition is not called and
    nothing else changes. *)
Theorem redundant_clicks_only_warn (w : World) :
  (isRecording w = true ->
   startVoiceInput w
   = (inr tt, set_console (console w ++ [log_entry ["⚠️ Already recording"]]) w))
  /\ (isRecording w = false ->
      stopVoiceInput w
      = (inr tt, set_console (console w ++ [log_entry ["⚠️ Not recording"]]) w)).
Proof. split; [apply startVoiceInput_already | apply stopVoiceInput_idle]. Qed.

Lemma put_active_back (r : Recognition) :
  active r = false -> put_active false (put_active true r) = r.
Proof. destruct r. cbn. by intros ->. Qed.

(** X5: Start followed by stop, from a state that is not recording and whose
    recognition is not running: the instance and the recognition are back
    where they were, the start button is enabled, the stop button is
    disabled, the progress bar is at 0%, and the console has the four
    messages of the two calls. *)
Theorem start_then_stop_restores (w : World) (r : Recognition) :
  isRecording w = false -> recognition w = Some r -> active r = false ->
  let w' := after (startVoiceInput ;;; stopVoiceInput) w in
  fst ((startVoiceInput ;;; stopVoiceInput) w) = inr tt
  /\ isRecording w' = false
  /\ recognition w' = Some r
  /\ disabled <$> document w' !! "startVoiceBtn"
     = (fun _ => false) <$> document w !! "startVoiceBtn"
  /\ disabled <$> document w' !! "stopVoiceBtn"
     = (fun _ => true) <$> document w !! "stopVoiceBtn"
  /\ style_width <$> document w' !! "voiceProgress"
     = (fun _ => "0%") <$> document w !! "voiceProgress"
  /\ console w'
     = console w ++ [log_entry ["🎤 Starting voice input..."];
                     log_entry ["✅ Voice input started"];
                     log_entry ["⏹️ Stopping voice input..."];
                     log_entry ["✅ Voice input stopped"]].
Proof.
  intros Hrec Hr Ha. cbv zeta. unfold after, bind.
  rewrite (startVoiceInput_success w r) by done.
  rewrite (stopVoiceInput_success _ (put_active true r)) by done.
  cbn. rewrite put_active_back by done. unfold page_stopped, page_started.
  split; [done |]. split; [done |]. split; [done |].
  split.
  { rewrite lookup_alter_ne, lookup_alter_ne, lookup_alter_eq by done.
    rewrite lookup_alter_ne, lookup_alter_ne, lookup_alter_eq by done.
    by destruct (document w !! "startVoiceBtn"). }
  split.
  { rewrite lookup_alter_ne, lookup_alter_eq, lookup_alter_ne by done.
    rewrite lookup_alter_ne, lookup_alter_eq, lookup_alter_ne by done.
    by destruct (document w !! "stopVoiceBtn"). }
  split.
  { rewrite lookup_alter_eq, lookup_alter_ne, lookup_alter_ne by done.
    rewrite lookup_alter_eq, lookup_alter_ne, lookup_alter_ne by done.
    by destruct (document w !! "voiceProgress"). }
  by rewrite <- app_assoc.
Qed.

Lemma start_then_stop_restores_witness :
  let w' := after (startVoiceInput ;;; stopVoiceInput) idle_world in
  fst ((startVoiceInput ;;; stopVoiceInput) idle_world) = inr tt
  /\ isRecording w' = false
  /\ recognition w' = Some (recognizer false)
  /\ disabled <$> document w' !! "startVoiceBtn"
     = (fun _ => false) <$> document idle_world !! "startVoiceBtn"
  /\ disabled <$> document w' !! "stopVoiceBtn"
     = (fun _ => true) <$> document idle_world !! "stopVoiceBtn"
  /\ style_width <$> document w' !! "voiceProgress"
     = (fun _ => "0%") <$> document idle_world !! "voiceProgress"
  /\ console w'
     = console idle_world ++ [log_entry ["🎤 Starting voice input..."];
                              log_entry ["✅ Voice input started"];
                              log_entry ["⏹️ Stopping voice input..."];
                              log_entry ["✅ Voice input stopped"]].
Proof.
  apply (start_then_stop_restores idle_world (recognizer false)); reflexivity.
Defined.

(** The instance records only while the recognition runs. *)
Definition recording_consistent (w : World) : Prop :=
  isRecording w = true -> exists r, recognition w = Some r /\ active r = true.

Lemma updateRecognitionLanguage_run (language : string) (w : World) :
  updateRecognitionLanguage language w
  = (inr tt,
     match recognition w with
     | Some r =>
         set_console (console w ++ [log_entry ["✅ Recognition language updated:"; language]])
           (set_recognition (Some (put_lang language r)) w)
     | None => w
     end).
Proof.
  unfold updateRecognitionLanguage, try_catch, bind, read_recognition, ret.
  by destruct (recognition w).
Qed.

(** X6: The three methods that write [isRecording] or the recognition keep the
    two in step: if the instance records only while the recognition runs,
    this is still so after [startVoiceInput], after [stopVoiceInput] and
    after [updateRecognitionLanguage]. *)
Theorem recording_stays_consistent (w : World) (language : string) :
  recording_consistent w ->
  recording_consistent (after startVoiceInput w)
  /\ recording_consistent (after stopVoiceInput w)
  /\ recording_consistent (after (updateRecognitionLanguage language) w).
Proof.
  intros Hc. unfold recording_consistent, after in *. repeat split.
  - destruct (isRecording w) eqn:Hrec.
    + rewrite startVoiceInput_already by done. cbn. by rewrite Hrec.
    + destruct (recognition w) as [r|] eqn:Hr.
      * destruct (active r) eqn:Ha.
        -- rewrite (startVoiceInput_busy w r) by done. cbn. by rewrite Hrec.
        -- rewrite (startVoiceInput_success w r) by done. cbn. intros _.
           by exists (put_active true r).
      * rewrite startVoiceInput_unsupported by done. cbn. by rewrite Hrec.
  - destruct (isRecording w) eqn:Hrec.
    + destruct (Hc eq_refl) as (r & Hr & Ha).
      rewrite (stopVoiceInput_success w r) by done. cbn. done.
    + rewrite stopVoiceInput_idle by done. cbn. by rewrite Hrec.
  - rewrite updateRecognitionLanguage_run. cbn [snd]. intros Hrec.
    destruct (recognition w) as [r|] eqn:Hr.
    + cbn in Hrec. destruct (Hc Hrec) as (r' & [= <-] & Ha).
      exists (put_lang language r). done.
    + rewrite Hr. by apply Hc.
Qed.

(** Recording, with the recognition running. *)
Definition recording_world : World :=
  set_isRecording true (set_recognition (Some (recognizer true)) idle_world).

Lemma recording_stays_consistent_witness :
  recording_consistent (after startVoiceInput recording_world)
  /\ recording_consistent (after stopVoiceInput recording_world)
  /\ recording_consistent (after (updateRecognitionLanguage "fr-FR") recording_world).
Proof.
  apply (recording_stays_consistent recording_world "fr-FR").
  intros _. exists (recognizer true). split; reflexivity.
Defined.


(** ** The progress bar *)

(** X7: for a whole percentage from 0 to 100, [updateVoiceProgress] never
    raises; it sets the width of the progress bar to the percentage followed
    by "%", keeps the bar's other properties and every other element, and
    changes nothing at all when the page has no progress bar. *)
Theorem progress_sets_width_only (p : Z) (w : World) :
  0 <= p <= 100 ->
  let w' := after (updateVoiceProgress p) w in
  fst (updateVoiceProgress p w) = inr tt
  /\ document w' !! "voiceProgress"
     = put_style_width (decimal p +:+ "%") <$> document w !! "voiceProgress"
  /\ (forall id, id <> "voiceProgress" -> document w' !! id = document w !! id)
  /\ set_document (document w) w' = w
  /\ (document w !! "voiceProgress" = None -> w' = w).
Proof.
  intros _. cbv zeta. unfold after. rewrite updateVoiceProgress_run.
  cbn [fst snd document set_document].
  split; [done |]. split; [by rewrite lookup_alter_eq |].
  split; [intros id Hid; by rewrite lookup_alter_ne |].
  split; [by destruct w |].
  intros Hnone. cbn. by rewrite alter_absent, set_document_same.
Qed.

Lemma progress_sets_width_only_witness :
  let w' := after (updateVoiceProgress 75) idle_world in
  fst (updateVoiceProgress 75 idle_world) = inr tt
  /\ document w' !! "voiceProgress"
     = put_style_width (decimal 75 +:+ "%") <$> document idle_world !! "voiceProgress"
  /\ (forall id, id <> "voiceProgress" -> document w' !! id = document idle_world !! id)
  /\ set_document (document idle_world) w' = idle_world
  /\ (document idle_world !! "voiceProgress" = None -> w' = idle_world).
Proof.
  apply (progress_sets_width_only 75 idle_world). lia.
Defined.

(** ** Speech results *)

(** The transcripts of the final ([keep = true]) or interim ([keep = false])
    results, first alternative of each, in order. *)
Fixpoint joined (keep : bool) (rs : list SpeechRecognitionResult) : string :=
  match rs with
  | [] => ""
  | r :: rest =>
      (if Bool.eqb (isFinal r) keep then hd "" (alternatives r) else "")
      +:+ joined keep rest
  end.

Lemma append_assoc (a b c : string) : (a +:+ b) +:+ c = a +:+ (b +:+ c).
Proof.
  induction a as [|x a IH]; [done |].
  change (String x ((a +:+ b) +:+ c) = String x (a +:+ (b +:+ c))). by rewrite IH.
Qed.

Lemma append_empty_r (a : string) : a +:+ "" = a.
Proof.
  induction a as [|x a IH]; [done |].
  change (String x (a +:+ "") = String x a). by rewrite IH.
Qed.

Lemma collect_well_formed (rs : list SpeechRecognitionResult) (f i : string) :
  Forall (fun r => alternatives r <> []) rs ->
  collect_transcripts rs f i = inr (f +:+ joined true rs, i +:+ joined false rs).
Proof.
  intros Hall. revert f i. induction Hall as [|r rs Hr _ IH]; intros f i.
  - cbn. by rewrite !append_empty_r.
  - cbn. destruct (alternatives r) as [|t alts]; [done |].
    destruct (isFinal r); cbn; rewrite IH; by rewrite ?append_assoc.
Qed.

Lemma collect_malformed (rs : list SpeechRecognitionResult) (f i : string) :
  Exists (fun r => alternatives r = []) rs ->
  collect_transcripts rs f i
  = inl (TypeError "Cannot read properties of undefined (reading 'transcript')").
Proof.
  intros Hex. revert f i. induction rs as [|r rs IH]; intros f i.
  - by apply Exists_nil in Hex.
  - cbn. destruct (alternatives r) as [|t alts] eqn:Halt; [done |].
    apply Exists_cons in Hex as [Hr | Hrs]; [congruence |].
    destruct (isFinal r); by apply IH.
Qed.

Lemma processVoiceInput_run (text : string) (w : World) :
  processVoiceInput text w
  = (inr tt,
     set_timers (timers w ++ [{| delay_ms := 1000; task := ClassifyAndTranslate text |}])
       (set_console (console w ++ [log_entry ["🧠 Processing voice input:"; text]]) w)).
Proof. reflexivity. Qed.

(** X8: A speech event whose results, from [resultIndex] on, all carry an
    alternative: the call never raises, and it schedules exactly one
    classification-and-translation of the concatenated final transcripts,
    one second later, when that text is not empty; otherwise it schedules
    nothing.  Interim results are never processed. *)
Theorem speech_result_schedules_final (event : SpeechRecognitionEvent) (w : World) :
  let rs := drop (resultIndex event) (results event) in
  Forall (fun r => alternatives r <> []) rs ->
  fst (handleSpeechResult event w) = inr tt
  /\ timers (after (handleSpeechResult event) w)
     = timers w
       ++ (if truthy (joined true rs)
           then [{| delay_ms := 1000; task := ClassifyAndTranslate (joined true rs) |}]
           else []).
Proof.
  cbv zeta. intros Hall. unfold after, handleSpeechResult, try_catch, bind at 1, lift.
  rewrite (collect_well_formed _ "" "" Hall).
  set (rs := drop (resultIndex event) (results event)).
  change ("" +:+ joined true rs) with (joined true rs).
  change ("" +:+ joined false rs) with (joined false rs).
  cbv beta iota zeta delta [fst snd bind].
  destruct (truthy (joined true rs)); destruct (truthy (joined false rs));
    cbn; by rewrite ?app_nil_r.
Qed.

Definition final_result (t : string) : SpeechRecognitionResult :=
  {| isFinal := true; alternatives := [t] |}.

Definition interim_result (t : string) : SpeechRecognitionResult :=
  {| isFinal := false; alternatives := [t; "alternative reading"] |}.

Definition sample_event : SpeechRecognitionEvent :=
  {| resultIndex := 1;
     results := [final_result "ignored, before resultIndex";
                 final_result "order two hundred ";
                 interim_result "steel she";
                 final_result "steel sheets"] |}.

Lemma speech_result_schedules_final_witness :
  fst (handleSpeechResult sample_event idle_world) = inr tt
  /\ timers (after (handleSpeechResult sample_event) idle_world)
     = [] ++ [{| delay_ms := 1000;
                 task := ClassifyAndTranslate "order two hundred steel sheets" |}].
Proof.
  apply (speech_result_schedules_final sample_event idle_world).
  repeat constructor; discriminate.
Defined.

(** X9: A result without any alternative, at or after [resultIndex], makes the
    loop throw; the exception is caught, and the whole event is dropped:
    nothing is scheduled, even when other results of the event were final,
    and a single error is logged. *)
Theorem malformed_speech_result_is_dropped (event : SpeechRecognitionEvent) (w : World) :
  Exists (fun r => alternatives r = []) (drop (resultIndex event) (results event)) ->
  handleSpeechResult event w
  = (inr tt,
     set_console
       (console w
        ++ [{| level := LvlError;
               args := ["❌ Error handling speech result:";
                        "TypeError: Cannot read properties of undefined (reading 'transcript')"] |}])
       w).
Proof.
  intros Hex. unfold handleSpeechResult, try_catch, bind, lift.
  by rewrite (collect_malformed _ "" "" Hex).
Qed.

Definition broken_event : SpeechRecognitionEvent :=
  {| resultIndex := 0;
     results := [final_result "order two hundred ";
                 {| isFinal := true; alternatives := [] |}] |}.

Lemma malformed_speech_result_is_dropped_witness :
  handleSpeechResult broken_event idle_world
  = (inr tt,
     set_console
       (console idle_world
        ++ [{| level := LvlError;
               args := ["❌ Error handling speech result:";
                        "TypeError: Cannot read properties of undefined (reading 'transcript')"] |}])
       idle_world).
Proof.
  apply (malformed_speech_result_is_dropped broken_event idle_world).
  apply Exists_cons_tl, Exists_cons_hd. reflexivity.
Defined.

(** X10: An event whose [resultIndex] is at or past the end of its results does
    nothing at all: no message, no timer. *)
Theorem speech_result_past_end (event : SpeechRecognitionEvent) (w : World) :
  (length (results event) <= resultIndex event)%nat ->
  handleSpeechResult event w = (inr tt, w).
Proof.
  intros Hlen. unfold handleSpeechResult, try_catch, bind, lift.
  by rewrite drop_ge.
Qed.

Lemma speech_result_past_end_witness :
  handleSpeechResult {| resultIndex := 2; results := [final_result "late"] |} idle_world
  = (inr tt, idle_world).
Proof.
  apply (speech_result_past_end {| resultIndex := 2; results := [final_result "late"] |}).
  cbn. lia.
Defined.

(** ** From the transcript to the translation *)

Lemma translateVoiceInput_run (text : string) (w : World) :
  translateVoiceInput text w
  = (inr tt,
     set_console (console w ++ [log_entry ["🌍 Translating voice input..."];
                                log_entry ["✅ Voice input translated:";
                                           "[Translated] " +:+ text]]) w).
Proof.
  unfold translateVoiceInput, try_catch, bind, console_log, console_emit, log_entry.
  cbn. unfold set_console. cbn. by rewrite <- app_assoc.
Qed.


(** X11: Processing a text and letting its timer fire, with no other timer
    pending: nothing is raised, the timer queue is empty again, and the
    console shows, in this order, the processing message, the two messages
    of the classification and the two of the translation, the last one
    carrying the text behind "[Translated] ". *)
Theorem process_then_fire (text : string) (w : World) :
  timers w = [] ->
  let w' := after (processVoiceInput text ;;; fire_timer) w in
  fst ((processVoiceInput text ;;; fire_timer) w) = inr tt
  /\ timers w' = []
  /\ console w'
     = console w
       ++ [log_entry ["🧠 Processing voice input:"; text];
           log_entry ["🏷️ Classifying voice input..."];
           log_entry ["✅ Voice input classified:";
                      display (pick_classification (random_source w (draws w)))];
           log_entry ["🌍 Translating voice input..."];
           log_entry ["✅ Voice input translated:"; "[Translated] " +:+ text]].
Proof.
  intros Ht. cbv zeta. unfold after, bind. rewrite processVoiceInput_run.
  unfold fire_timer. cbn [timers set_timers set_console]. rewrite Ht. cbn [app].
  cbn [task run_task]. unfold bind. rewrite classifyVoiceInput_run.
  rewrite translateVoiceInput_run. cbn [fst snd].
  cbn [document set_timers set_console draws random_source console].
  destruct (document w !! "classificationResults") eqn:Hel; cbn;
    rewrite <- !app_assoc; done.
Qed.

Lemma process_then_fire_witness :
  let w' := after (processVoiceInput "steel sheets" ;;; fire_timer) idle_world in
  fst ((processVoiceInput "steel sheets" ;;; fire_timer) idle_world) = inr tt
  /\ timers w' = []
  /\ console w'
     = console idle_world
       ++ [log_entry ["🧠 Processing voice input:"; "steel sheets"];
           log_entry ["🏷️ Classifying voice input..."];
           log_entry ["✅ Voice input classified:";
                      display (pick_classification
                                 (random_source idle_world (draws idle_world)))];
           log_entry ["🌍 Translating voice input..."];
           log_entry ["✅ Voice input translated:"; "[Translated] steel sheets"]].
Proof.
  apply (process_then_fire "steel sheets" idle_world). reflexivity.
Defined.

(** X12: From speech to translation: for a well-formed event with a non-empty
    final transcript and no other timer pending, once the timer has fired
    the last console message is the translation of the concatenated final
    transcripts, and exactly those: interim text and results before
    [resultIndex] are not part of it. *)
Theorem final_transcript_is_translated (event : SpeechRecognitionEvent) (w : World) :
  let rs := drop (resultIndex event) (results event) in
  Forall (fun r => alternatives r <> []) rs ->
  truthy (joined true rs) = true ->
  timers w = [] ->
  let w' := after (handleSpeechResult event ;;; fire_timer) w in
  timers w' = []
  /\ last (console w')
     = Some (log_entry ["✅ Voice input translated:";
                        "[Translated] " +:+ joined true rs]).
Proof.
  cbv zeta. intros Hall Hfinal Ht. unfold after, bind.
  pose proof (speech_result_schedules_final event w Hall) as [Hok Htimers].
  unfold after in Htimers. rewrite Hfinal, Ht in Htimers. cbn [app] in Htimers.
  destruct (handleSpeechResult event w) as [res w1]. cbn [fst snd] in *. subst res.
  unfold fire_timer. rewrite Htimers. cbn [task run_task]. unfold bind.
  rewrite classifyVoiceInput_run, translateVoiceInput_run. cbn [fst snd].
  destruct (document (set_timers [] w1) !! "classificationResults"); cbn;
    (split; [done |]); by rewrite last_app.
Qed.

Lemma final_transcript_is_translated_witness :
  let w' := after (handleSpeechResult sample_event ;;; fire_timer) idle_world in
  timers w' = []
  /\ last (console w')
     = Some (log_entry ["✅ Voice input translated:";
                        "[Translated] " +:+ "order two hundred steel sheets"]).
Proof.
  apply (final_transcript_is_translated sample_event idle_world).
  - repeat constructor; discriminate.
  - reflexivity.
  - reflexivity.
Defined.

(** ** Languages *)

Definition test_utterance : Utterance :=
  {| utt_text := "Hello, this is a test of the SEEKER voice interface.";
     utt_lang := "en-US"; utt_rate := num_1; utt_pitch := num_1 |}.

(** X13: The target language never reaches the speech synthesis:
    [updateSynthesisLanguage] only logs, and a voice test made after it still
    queues the fixed English utterance in "en-US". *)
Theorem test_voice_ignores_target_language (language : string) (w : World)
    (queue : list Utterance) :
  synthesis w = Some queue ->
  let w' := after (updateSynthesisLanguage language ;;; testVoiceOutput) w in
  fst ((updateSynthesisLanguage language ;;; testVoiceOutput) w) = inr tt
  /\ synthesis w' = Some (queue ++ [test_utterance])
  /\ synthesis (after (updateSynthesisLanguage language) w) = synthesis w
  /\ recognition w' = recognition w.
Proof.
  intros Hs. cbv zeta. unfold after, bind, updateSynthesisLanguage, testVoiceOutput,
    try_catch, bind, console_log, console_emit, read_synthesis.
  cbn [synthesis set_console]. rewrite Hs. cbn. done.
Qed.

Lemma test_voice_ignores_target_language_witness :
  let w' := after (updateSynthesisLanguage "ja-JP" ;;; testVoiceOutput) idle_world in
  fst ((updateSynthesisLanguage "ja-JP" ;;; testVoiceOutput) idle_world) = inr tt
  /\ synthesis w' = Some ([] ++ [test_utterance])
  /\ synthesis (after (updateSynthesisLanguage "ja-JP") idle_world) = synthesis idle_world
  /\ recognition w' = recognition idle_world.
Proof.
  apply (test_voice_ignores_target_language "ja-JP" idle_world []). reflexivity.
Defined.

(** X14: [updateRecognitionLanguage] never raises and writes the language of the
    recognition only: whether it runs, its other settings, the recording
    flag and the page are kept.  Without a recognition object the call does
    nothing, not even log. *)
Theorem recognition_language_only (language : string) (w : World) :
  let w' := after (updateRecognitionLanguage language) w in
  fst (updateRecognitionLanguage language w) = inr tt
  /\ recognition w' = put_lang language <$> recognition w
  /\ isRecording w' = isRecording w
  /\ document w' = document w
  /\ (recognition w = None -> w' = w).
Proof.
  cbv zeta. unfold after. rewrite updateRecognitionLanguage_run. cbn [fst snd].
  destruct (recognition w) as [r|] eqn:Hr; cbn; by rewrite ?Hr.
Qed.


(** ** A page without the results element *)

(** X15: When the page has no element [classificationResults], a classification
    draws a single random Number, for the label; no confidence is computed,
    the page is not touched, and the label is still logged. *)
Theorem classify_without_results_element (text : string) (w : World) :
  document w !! "classificationResults" = None ->
  let w' := after (classifyVoiceInput text) w in
  fst (classifyVoiceInput text w) = inr tt
  /\ draws w' = S (draws w)
  /\ document w' = document w
  /\ console w'
     = console w
       ++ [log_entry ["🏷️ Classifying voice input..."];
           log_entry ["✅ Voice input classified:";
                      display (pick_classification (random_source w (draws w)))]].
Proof.
  intros Hnone. cbv zeta. unfold after. rewrite classifyVoiceInput_run.
  cbn [fst snd]. rewrite Hnone. cbn. done.
Qed.

Definition bare_world : World :=
  {| console := []; document := ∅; random_source := fun _ => nine_tenths; draws := 0;
     isRecording := false; recognition := None; synthesis := None; timers := [] |}.

Lemma classify_without_results_element_witness :
  let w' := after (classifyVoiceInput "hello") bare_world in
  fst (classifyVoiceInput "hello" bare_world) = inr tt
  /\ draws w' = S (draws bare_world)
  /\ document w' = document bare_world
  /\ console w'
     = console bare_world
       ++ [log_entry ["🏷️ Classifying voice input..."];
           log_entry ["✅ Voice input classified:";
                      display (pick_classification
                                 (random_source bare_world (draws bare_world)))]].
Proof.
  apply (classify_without_results_element "hello" bare_world). reflexivity.
Defined.

Lemma redundant_clicks_only_warn_witness :
  startVoiceInput recording_world
  = (inr tt, set_console (console recording_world ++ [log_entry ["⚠️ Already recording"]])
               recording_world)
  /\ stopVoiceInput idle_world
     = (inr tt, set_console (console idle_world ++ [log_entry ["⚠️ Not recording"]])
                  idle_world).
Proof.
  split.
  - apply (proj1 (redundant_clicks_only_warn recording_world)). reflexivity.
  - apply (proj2 (redundant_clicks_only_warn idle_world)). reflexivity.
Defined.

End RecordingFacts.
